(** * Identifiers of avalanche-types (src/avalanche-types/src/ids.rs)

    A shallow embedding of [Id], [ShortId], [NodeId], their collections
    [Ids], [ShortIds], [NodeIds], the CB58 text form, [Id::prefix] and the
    serde bindings.  Rust panics ([assert!], out-of-range string slices) are
    the [Panic] outcome of [res]; recoverable [io::Error]s are [Err]. *)

From Stdlib Require Import String Ascii Strings.Byte NArith ZArith Lia Bool List.
Import ListNotations.
Open Scope list_scope.

(** ** Outcomes of a Rust call *)

Inductive error : Type :=
  | DecodeError (msg : string)      (* io::Error of ErrorKind::Other *)
  | InvalidType                     (* serde: value of the wrong type *)
  | CustomError (msg : string).     (* serde::de::Error::custom *)

Inductive res (A : Type) : Type :=
  | Ok (a : A)
  | Err (e : error)
  | Panic.
Arguments Ok {A} a.
Arguments Err {A} e.
Arguments Panic {A}.

Definition bind {A B} (m : res A) (k : A -> res B) : res B :=
  match m with
  | Ok a => k a
  | Err e => Err e
  | Panic => Panic
  end.

Notation "x <- m ;; k" := (bind m (fun x => k))
  (at level 61, m at next level, right associativity).

Definition map_err {A} (f : error -> error) (m : res A) : res A :=
  match m with
  | Err e => Err (f e)
  | r => r
  end.

(** [assert!(c)] *)
Definition assert (c : bool) : res unit := if c then Ok tt else Panic.

(** ** Constants *)

Definition ID_LEN : nat := 32.
Definition SHORT_ID_LEN : nat := 20.
Definition NODE_ID_LEN : nat := 20.
Definition NODE_ID_ENCODE_PREFIX : string := "NodeID-".

(** [Vec::resize(new_len, value)]: extends with [value] or truncates. *)
Definition vec_resize (d : list byte) (new_len : nat) (value : byte) : list byte :=
  if length d <? new_len then d ++ repeat value (new_len - length d)
  else firstn new_len d.

(** ** The three identifier types *)

Record Id : Type := mkId { id_d : list byte }.
Record ShortId : Type := mkShortId { short_id_d : list byte }.
Record NodeId : Type := mkNodeId { node_id_d : list byte }.

Definition Id_empty : Id := mkId (repeat x00 ID_LEN).
Definition ShortId_empty : ShortId := mkShortId (repeat x00 SHORT_ID_LEN).
Definition NodeId_empty : NodeId := mkNodeId (repeat x00 NODE_ID_LEN).

(** [Id::from_slice] *)
Definition Id_from_slice (d : list byte) : res Id :=
  _ <- assert (length d <=? ID_LEN) ;;
  let d := if length d <? ID_LEN then vec_resize d ID_LEN x00 else d in
  Ok (mkId d).

(** [ShortId::from_slice] *)
Definition ShortId_from_slice (d : list byte) : res ShortId :=
  _ <- assert (length d <=? SHORT_ID_LEN) ;;
  let d := if length d <? SHORT_ID_LEN then vec_resize d SHORT_ID_LEN x00 else d in
  Ok (mkShortId d).

(** [NodeId::from_slice]: [assert_eq!(d.len(), SHORT_ID_LEN)] *)
Definition NodeId_from_slice (d : list byte) : res NodeId :=
  _ <- assert (length d =? SHORT_ID_LEN) ;;
  Ok (mkNodeId d).

(** [NodeId::short_id] *)
Definition NodeId_short_id (x : NodeId) : res ShortId :=
  ShortId_from_slice (node_id_d x).

(** ** Ordering: [Ord], [PartialOrd], [PartialEq] *)

Class Ord (A : Type) := cmp : A -> A -> comparison.

Definition partial_cmp {A} `{Ord A} (x y : A) : option comparison := Some (cmp x y).
Definition ord_eq {A} `{Ord A} (x y : A) : bool :=
  match cmp x y with Eq => true | _ => false end.
Definition ord_lt {A} `{Ord A} (x y : A) : bool :=
  match partial_cmp x y with Some Lt => true | _ => false end.
Definition ord_gt {A} `{Ord A} (x y : A) : bool :=
  match partial_cmp x y with Some Gt => true | _ => false end.

(** [u8]'s [Ord]: unsigned comparison. *)
#[export] Instance Ord_u8 : Ord byte := fun a b => N.compare (Byte.to_N a) (Byte.to_N b).

(** [usize]'s [Ord]. *)
#[export] Instance Ord_usize : Ord nat := Nat.compare.

(** [Ordering::then_with] *)
Definition then_with (o : comparison) (f : unit -> comparison) : comparison :=
  match o with Eq => f tt | _ => o end.

(** [Ord] of a slice / [Vec<T>]: lexicographic, a proper prefix is less. *)
Fixpoint slice_cmp {A} `{Ord A} (a b : list A) : comparison :=
  match a, b with
  | [], [] => Eq
  | [], _ :: _ => Lt
  | _ :: _, [] => Gt
  | x :: a', y :: b' => then_with (cmp x y) (fun _ => slice_cmp a' b')
  end.

#[export] Instance Ord_Id : Ord Id := fun x y => slice_cmp (id_d x) (id_d y).
#[export] Instance Ord_ShortId : Ord ShortId :=
  fun x y => slice_cmp (short_id_d x) (short_id_d y).
#[export] Instance Ord_NodeId : Ord NodeId :=
  fun x y => slice_cmp (node_id_d x) (node_id_d y).

(** [is_empty]: [self == Self::empty()] *)
Definition Id_is_empty (x : Id) : bool := ord_eq x Id_empty.
Definition ShortId_is_empty (x : ShortId) : bool := ord_eq x ShortId_empty.
Definition NodeId_is_empty (x : NodeId) : bool := ord_eq x NodeId_empty.

(** ** Collections *)

Record Ids : Type := mkIds { ids_0 : list Id }.
Record ShortIds : Type := mkShortIds { short_ids_0 : list ShortId }.
Record NodeIds : Type := mkNodeIds { node_ids_0 : list NodeId }.

(** The body shared by the three [impl Ord for ...Ids]:
    [l1.cmp(&l2).then_with(|| self.0.cmp(&other.0))]. *)
Definition length_first_cmp {A} `{Ord A} (a b : list A) : comparison :=
  let l1 := length a in
  let l2 := length b in
  then_with (cmp l1 l2) (fun _ => slice_cmp a b).

#[export] Instance Ord_Ids : Ord Ids := fun x y => length_first_cmp (ids_0 x) (ids_0 y).
#[export] Instance Ord_ShortIds : Ord ShortIds :=
  fun x y => length_first_cmp (short_ids_0 x) (short_ids_0 y).
#[export] Instance Ord_NodeIds : Ord NodeIds :=
  fun x y => length_first_cmp (node_ids_0 x) (node_ids_0 y).

(** ** Hashing: [impl Hash] writes [self.d] to the hasher *)

(** A [Hasher]: any state with [write_usize] and [write]. *)
Record Hasher (S : Type) : Type := mkHasher {
  write_usize : S -> nat -> S;
  write : S -> list byte -> S
}.
Arguments write_usize {S} h _ _.
Arguments write {S} h _ _.

(** [<[u8] as Hash>::hash]: the length prefix, then the bytes. *)
Definition hash_slice {S} (h : Hasher S) (st : S) (d : list byte) : S :=
  write h (write_usize h st (length d)) d.

Definition Id_hash {S} (h : Hasher S) (st : S) (x : Id) : S := hash_slice h st (id_d x).
Definition ShortId_hash {S} (h : Hasher S) (st : S) (x : ShortId) : S :=
  hash_slice h st (short_id_d x).
Definition NodeId_hash {S} (h : Hasher S) (st : S) (x : NodeId) : S :=
  hash_slice h st (node_id_d x).

(** ** Numbers in a base: little-endian digits *)

(** Digits of [n] in [base], least significant first, with [fuel] steps. *)
Fixpoint to_le (base : N) (fuel : nat) (n : N) : list N :=
  match fuel with
  | O => []
  | S f => if (n =? 0)%N then [] else (n mod base)%N :: to_le base f (n / base)%N
  end.

(** The value of a little-endian digit list. *)
Fixpoint le_val (base : N) (l : list N) : N :=
  match l with
  | [] => 0%N
  | d :: l' => (d + base * le_val base l')%N
  end.

(** The value of a big-endian digit list, read left to right. *)
Definition be_num (base : N) (ds : list N) : N :=
  fold_left (fun acc d => acc * base + d)%N ds 0%N.

(** The minimal big-endian digits of [n] ([] for 0). *)
Definition digits_be (base n : N) : list N := rev (to_le base (N.to_nat (N.size n)) n).

Definition byte_of_N (n : N) : byte :=
  match Byte.of_N n with Some b => b | None => x00 end.

(** The unsigned big-endian value of a byte buffer. *)
Definition be_value (l : list byte) : N := be_num 256 (map Byte.to_N l).

(** The minimal big-endian bytes of [n]. *)
Definition bytes_be (n : N) : list byte := map byte_of_N (digits_be 256 n).

Fixpoint count_leading {A} (p : A -> bool) (l : list A) : nat :=
  match l with
  | [] => O
  | x :: l' => if p x then S (count_leading p l') else O
  end.

Fixpoint traverse {A B} (f : A -> option B) (l : list A) : option (list B) :=
  match l with
  | [] => Some []
  | x :: l' =>
      match f x, traverse f l' with
      | Some y, Some ys => Some (y :: ys)
      | _, _ => None
      end
  end.

(** ** The CB58 codec (formatting.rs) *)

Definition BASE58_ALPHABET : string :=
  "123456789ABCDEFGHJKLMNPQRSTUVWXYZabcdefghijkmnopqrstuvwxyz".

Definition b58_char (d : N) : ascii :=
  match String.get (N.to_nat d) BASE58_ALPHABET with Some c => c | None => "1"%char end.

Fixpoint index_of (c : ascii) (s : string) : option N :=
  match s with
  | EmptyString => None
  | String c' s' => if Ascii.eqb c c' then Some 0%N else option_map N.succ (index_of c s')
  end.

(** Modelled from the spec: the Base58 codec behind [formatting] (not in
    src), Bitcoin alphabet, no padding character (section 4.2): each leading
    zero byte becomes ['1'], the remaining bytes are written as a big-endian
    number in base 58. *)
Definition bs58_encode (data : list byte) : string :=
  let zeros := count_leading (fun b => Byte.eqb b x00) data in
  string_of_list_ascii
    (repeat "1"%char zeros ++ map b58_char (digits_be 58 (be_value data))).

(** Modelled from the spec: Base58 decoding; fails on a character outside
    the alphabet. *)
Definition bs58_decode (s : string) : option (list byte) :=
  let cs := list_ascii_of_string s in
  let ones := count_leading (fun c => Ascii.eqb c "1"%char) cs in
  match traverse (fun c => index_of c BASE58_ALPHABET) (skipn ones cs) with
  | None => None
  | Some ds => Some (repeat x00 ones ++ bytes_be (be_num 58 ds))
  end.

Definition CHECKSUM_LENGTH : nat := 4.

Section WithSha256.

(** The SHA-256 primitive ([utils::hash::compute_sha256]), an external
    collaborator. *)
Variable compute_sha256 : list byte -> list byte.

(** Modelled from the spec: the 4-byte SHA-256 checksum of the payload
    (section 4.2).  Section 4.2 says the first 4 bytes of the digest; the
    text vectors of section 8, which [test_id], [test_short_id] and
    [test_from_cert_file] assert, are produced by the last 4 bytes (as in
    avalanchego's [hashing.Checksum]), and this model takes those. *)
Definition checksum (d : list byte) : list byte :=
  let h := compute_sha256 d in
  skipn (length h - CHECKSUM_LENGTH) h.

(** Modelled from the spec: [formatting::encode_cb58_with_checksum]. *)
Definition encode_cb58_with_checksum (d : list byte) : string :=
  bs58_encode (d ++ checksum d).

(** Modelled from the spec: [formatting::decode_cb58_with_checksum]:
    Base58-decode, split off the last 4 bytes, compare with the recomputed
    checksum. *)
Definition decode_cb58_with_checksum (s : string) : res (list byte) :=
  match bs58_decode s with
  | None => Err (DecodeError "failed to decode base58")
  | Some decoded =>
      let n := length decoded in
      if n <? CHECKSUM_LENGTH then Err (DecodeError "not enough bytes for checksum")
      else
        let orig := firstn (n - CHECKSUM_LENGTH) decoded in
        let cs := skipn (n - CHECKSUM_LENGTH) decoded in
        if list_eq_dec Byte.byte_eq_dec cs (checksum orig) then Ok orig
        else Err (DecodeError "invalid checksum")
  end.

(** [Error::new(ErrorKind::Other, format!("failed decode_cb58_with_checksum '{}'", e))] *)
Definition wrap_decode_error (e : error) : error :=
  match e with
  | DecodeError m => DecodeError ("failed decode_cb58_with_checksum '" ++ m ++ "'")
  | e => e
  end.

(** [impl fmt::Display for Id] / [ShortId] *)
Definition Id_to_string (x : Id) : string := encode_cb58_with_checksum (id_d x).
Definition ShortId_to_string (x : ShortId) : string :=
  encode_cb58_with_checksum (short_id_d x).

(** [impl fmt::Display for NodeId] *)
Definition NodeId_to_string (x : NodeId) : string :=
  (NODE_ID_ENCODE_PREFIX ++ encode_cb58_with_checksum (node_id_d x))%string.

(** [impl FromStr for Id] / [ShortId] *)
Definition Id_from_str (s : string) : res Id :=
  decoded <- map_err wrap_decode_error (decode_cb58_with_checksum s) ;;
  Id_from_slice decoded.

Definition ShortId_from_str (s : string) : res ShortId :=
  decoded <- map_err wrap_decode_error (decode_cb58_with_checksum s) ;;
  ShortId_from_slice decoded.


(** [str::is_char_boundary]: [index == 0], or the byte at [index] is not a
    UTF-8 continuation byte ([(b as i8) >= -0x40]), or [index == len]. *)
Definition is_char_boundary (s : string) (index : nat) : bool :=
  match index with
  | O => true
  | _ =>
      match String.get index s with
      | Some c => negb (N.land (N_of_ascii c) 192 =? 128)%N
      | None => index =? String.length s
      end
  end.

(** [&s[i..j]]: panics unless [i <= j <= len] and both ends are char
    boundaries. *)
Definition str_index (s : string) (i j : nat) : res string :=
  if (i <=? j) && (j <=? String.length s) && is_char_boundary s i && is_char_boundary s j
  then Ok (substring i (j - i) s)
  else Panic.

(** [strip_node_id_prefix] *)
Definition strip_node_id_prefix (addr : string) : res string :=
  let n := String.length NODE_ID_ENCODE_PREFIX in
  head <- str_index addr 0 n ;;
  if String.eqb head NODE_ID_ENCODE_PREFIX then str_index addr n (String.length addr)
  else Ok addr.

(** [impl FromStr for NodeId] *)
Definition NodeId_from_str (s : string) : res NodeId :=
  processed <- strip_node_id_prefix s ;;
  decoded <- map_err wrap_decode_error (decode_cb58_with_checksum processed) ;;
  NodeId_from_slice decoded.

(** ** Serde bindings *)

(** The value a field holds in a structured document. *)
Inductive Value : Type :=
  | VNull
  | VString (s : string)
  | VOther.

(** [String::deserialize] *)
Definition String_deserialize (v : Value) : res string :=
  match v with VString s => Ok s | _ => Err InvalidType end.

(** [serde::de::Error::custom] *)
Definition custom (e : error) : error :=
  match e with
  | DecodeError m | CustomError m => CustomError m
  | InvalidType => CustomError "invalid type"
  end.

(** [Option::deserialize]: null is [None], anything else goes to the inner
    deserializer. *)
Definition Option_deserialize {A} (inner : Value -> res A) (v : Value) : res (option A) :=
  match v with
  | VNull => Ok None
  | _ => a <- inner v ;; Ok (Some a)
  end.

Definition fmt_id (v : Value) : res Id :=
  s <- String_deserialize v ;; map_err custom (Id_from_str s).
Definition fmt_short_id (v : Value) : res ShortId :=
  s <- String_deserialize v ;; map_err custom (ShortId_from_str s).
Definition fmt_node_id (v : Value) : res NodeId :=
  s <- String_deserialize v ;; map_err custom (NodeId_from_str s).

Definition deserialize_id (v : Value) : res (option Id) :=
  o <- Option_deserialize fmt_id v ;; Ok o.
Definition deserialize_short_id (v : Value) : res (option ShortId) :=
  o <- Option_deserialize fmt_short_id v ;; Ok o.
Definition deserialize_node_id (v : Value) : res (option NodeId) :=
  o <- Option_deserialize fmt_node_id v ;; Ok o.

Definition must_deserialize_id (v : Value) : res Id :=
  o <- Option_deserialize fmt_id v ;;
  match o with
  | Some unwrapped => Ok unwrapped
  | None => Err (CustomError "empty Id from deserialization")
  end.
Definition must_deserialize_short_id (v : Value) : res ShortId :=
  o <- Option_deserialize fmt_short_id v ;;
  match o with
  | Some unwrapped => Ok unwrapped
  | None => Err (CustomError "empty ShortId from deserialization")
  end.
Definition must_deserialize_node_id (v : Value) : res NodeId :=
  o <- Option_deserialize fmt_node_id v ;;
  match o with
  | Some unwrapped => Ok unwrapped
  | None => Err (CustomError "empty NodeId from deserialization")
  end.

(** [impl Serialize for Id] / [ShortId] / [NodeId]:
    [serializer.serialize_str(&self.to_string())] *)
Definition Id_serialize (x : Id) : Value := VString (Id_to_string x).
Definition ShortId_serialize (x : ShortId) : Value := VString (ShortId_to_string x).
Definition NodeId_serialize (x : NodeId) : Value := VString (NodeId_to_string x).

(** ** [Id::prefix] and the byte packer *)

Definition U64_LEN : nat := 8.

(** [k] bytes of [v], least significant first. *)
Fixpoint le_bytes (k : nat) (v : N) : list byte :=
  match k with
  | O => []
  | S k' => byte_of_N (v mod 256)%N :: le_bytes k' (v / 256)%N
  end.

(** A [u64] as 8 big-endian bytes. *)
Definition u64_be (v : N) : list byte := rev (le_bytes U64_LEN v).

(** Modelled from the spec: the byte packer of [packer.rs] (not in src).
    It appends its inputs in order, a [u64] as 8 big-endian bytes
    (section 4.4).  [Packer::new(max_size, initial_cap)] bounds the buffer
    by [max_size]: a pack that would grow it past [max_size] fails and
    writes nothing. *)
Record Packer : Type := mkPacker { max_size : nat; packed : list byte }.

Definition Packer_new (max_size initial_cap : nat) : Packer := mkPacker max_size [].

Definition pack_bytes (p : Packer) (b : list byte) : res Packer :=
  if length (packed p) + length b <=? max_size p
  then Ok (mkPacker (max_size p) (packed p ++ b))
  else Err (DecodeError "needed size exceeds max_size").

Definition pack_u64 (p : Packer) (v : N) : res Packer := pack_bytes p (u64_be v).

Definition take_bytes (p : Packer) : list byte := packed p.

(** A statement [packer.pack_...(..);] whose result is discarded. *)
Definition discard (p : Packer) (r : res Packer) : Packer :=
  match r with Ok p' => p' | _ => p end.

(** [Id::prefix] *)
Definition Id_prefix (x : Id) (prefixes : list N) : res Id :=
  let n := length prefixes + U64_LEN + 32 in
  let packer := Packer_new n n in
  let packer := fold_left (fun p pfx => discard p (pack_u64 p pfx)) prefixes packer in
  let packer := discard packer (pack_bytes packer (id_d x)) in
  let b := take_bytes packer in
  let d := compute_sha256 b in
  Id_from_slice d.

(** The byte string section 4.4 hashes: each tag as 8 big-endian bytes,
    then the identifier's 32 bytes. *)
Definition prefix_preimage_spec (x : Id) (prefixes : list N) : list byte :=
  concat (map u64_be prefixes) ++ id_d x.

End WithSha256.

(** ** SHA-256 (FIPS 180-4)

    A reference implementation of the external hash primitive, used to run
    the definitions above on concrete inputs. *)
Module Sha256.
Open Scope Z_scope.

Definition K : list Z := [
  1116352408; 1899447441; 3049323471; 3921009573; 961987163; 1508970993;
  2453635748; 2870763221; 3624381080; 310598401; 607225278; 1426881987;
  1925078388; 2162078206; 2614888103; 3248222580; 3835390401; 4022224774;
  264347078; 604807628; 770255983; 1249150122; 1555081692; 1996064986;
  2554220882; 2821834349; 2952996808; 3210313671; 3336571891; 3584528711;
  113926993; 338241895; 666307205; 773529912; 1294757372; 1396182291;
  1695183700; 1986661051; 2177026350; 2456956037; 2730485921; 2820302411;
  3259730800; 3345764771; 3516065817; 3600352804; 4094571909; 275423344;
  430227734; 506948616; 659060556; 883997877; 958139571; 1322822218;
  1537002063; 1747873779; 1955562222; 2024104815; 2227730452; 2361852424;
  2428436474; 2756734187; 3204031479; 3329325298].

Definition H0 : list Z := [
  1779033703; 3144134277; 1013904242; 2773480762;
  1359893119; 2600822924; 528734635; 1541459225].

Definition w32 (x : Z) : Z := Z.land x (Z.ones 32).
Definition add (x y : Z) : Z := w32 (x + y).
Definition rotr (x n : Z) : Z := Z.lor (Z.shiftr x n) (w32 (Z.shiftl x (32 - n))).
Definition not32 (x : Z) : Z := Z.lxor x (Z.ones 32).

Definition big_sigma0 x := Z.lxor (Z.lxor (rotr x 2) (rotr x 13)) (rotr x 22).
Definition big_sigma1 x := Z.lxor (Z.lxor (rotr x 6) (rotr x 11)) (rotr x 25).
Definition small_sigma0 x := Z.lxor (Z.lxor (rotr x 7) (rotr x 18)) (Z.shiftr x 3).
Definition small_sigma1 x := Z.lxor (Z.lxor (rotr x 17) (rotr x 19)) (Z.shiftr x 10).
Definition ch x y z := Z.lxor (Z.land x y) (Z.land (not32 x) z).
Definition maj x y z := Z.lxor (Z.lxor (Z.land x y) (Z.land x z)) (Z.land y z).

Definition word_of_bytes (b : list byte) : Z :=
  fold_left (fun acc c => acc * 256 + Z.of_N (Byte.to_N c)) b 0.

Definition bytes_of_word (w : Z) : list byte :=
  map (fun k => match Byte.of_N (Z.to_N ((Z.shiftr w k) mod 256)) with
                | Some c => c | None => x00 end) [24; 16; 8; 0].

Fixpoint words (fuel : nat) (b : list byte) : list Z :=
  match fuel, b with
  | O, _ | _, [] => []
  | S f, _ => word_of_bytes (firstn 4 b) :: words f (skipn 4 b)
  end.

(** The 64-word message schedule, built forward. *)
Fixpoint schedule (fuel : nat) (w : list Z) : list Z :=
  match fuel with
  | O => w
  | S f =>
      let t := length w in
      let get i := nth i w 0 in
      schedule f (w ++ [add (add (small_sigma1 (get (t - 2)%nat)) (get (t - 7)%nat))
                             (add (small_sigma0 (get (t - 15)%nat)) (get (t - 16)%nat))])
  end.

Definition round (st : list Z) (kw : Z * Z) : list Z :=
  match st with
  | [a; b; c; d; e; f; g; h] =>
      let t1 := add (add (add (add h (big_sigma1 e)) (ch e f g)) (fst kw)) (snd kw) in
      let t2 := add (big_sigma0 a) (maj a b c) in
      [add t1 t2; a; b; c; add d t1; e; f; g]
  | _ => st
  end.

Definition compress (hs : list Z) (block : list byte) : list Z :=
  let w := schedule 48 (words 16 block) in
  let st := fold_left round (combine K w) hs in
  map (fun p => add (fst p) (snd p)) (combine hs st).

Fixpoint blocks (fuel : nat) (m : list byte) : list (list byte) :=
  match fuel, m with
  | O, _ | _, [] => []
  | S f, _ => firstn 64 m :: blocks f (skipn 64 m)
  end.

Definition pad (m : list byte) : list byte :=
  let l := length m in
  let zeros := ((119 - (l mod 64)) mod 64)%nat in
  m ++ [x80] ++ repeat x00 zeros ++
    flat_map bytes_of_word [Z.shiftr (8 * Z.of_nat l) 32; w32 (8 * Z.of_nat l)].

Definition digest (m : list byte) : list byte :=
  let p := pad m in
  flat_map bytes_of_word (fold_left compress (blocks (length p) p) H0).
End Sha256.

(** ** Auxiliary definitions for the properties *)

(** The test vectors of section 8, as bytes. *)
Definition hex_bytes (l : list N) : list byte := map byte_of_N l.

Definition test_vector_id : list byte :=
  hex_bytes [0x3d; 0x0a; 0xd1; 0x2b; 0x8e; 0xe8; 0x92; 0x8e; 0xdf; 0x24;
             0x8c; 0xa9; 0x1c; 0xa5; 0x56; 0x00; 0xfb; 0x38; 0x3f; 0x07;
             0xc3; 0x2b; 0xff; 0x1d; 0x6d; 0xec; 0x47; 0x2b; 0x25; 0xcf;
             0x59; 0xa7]%N.

(** A digit list is canonical when it is empty or its top digit is not 0. *)
Definition canonical (l : list N) : Prop :=
  l = [] \/ exists l' d, l = l' ++ [d] /\ d <> 0%N.

(** Characters of the CB58 text form. *)
Definition is_ascii (c : ascii) : bool := (N_of_ascii c <? 128)%N.

(** Every character of the alphabet is ASCII and differs from ['I']. *)
Definition b58_safe (c : ascii) : bool := is_ascii c && negb (Ascii.eqb c "I"%char).

Definition chars_safe (s : string) : Prop :=
  forall n c, String.get n s = Some c -> b58_safe c = true.

Definition chars_ascii (s : string) : Prop :=
  forall n c, String.get n s = Some c -> is_ascii c = true.

(** A hasher that records what it is fed. *)
Definition recording_hasher : Hasher (list N) :=
  mkHasher (list N) (fun st n => st ++ [N.of_nat n])
           (fun st d => st ++ map Byte.to_N d).

(** Exactly one of three booleans holds. *)
Definition exactly_one (a b c : bool) : bool :=
  (Nat.b2n a + Nat.b2n b + Nat.b2n c =? 1)%nat.

(** The order of section 5 on identifiers with byte buffer [bytes]:
    unsigned big-endian comparison of the buffers, exactly one of [<], [==],
    [>], [==] meaning equal bytes, antisymmetric, the first differing byte
    deciding. *)
Definition byte_order_spec {T} `{Ord T} (bytes : T -> list byte) (x y : T) : Prop :=
  cmp x y = N.compare (be_value (bytes x)) (be_value (bytes y))
  /\ exactly_one (ord_lt x y) (ord_eq x y) (ord_gt x y) = true
  /\ (ord_eq x y = true <-> bytes x = bytes y)
  /\ cmp y x = CompOpp (cmp x y)
  /\ (forall p u v r1 r2, bytes x = p ++ u :: r1 -> bytes y = p ++ v :: r2 -> u <> v ->
        cmp x y = N.compare (Byte.to_N u) (Byte.to_N v)).

(** The collection order of section 5 on a collection type with elements
    [elems]: the shorter collection is less; at equal lengths the first
    pair of unequal elements decides; equality is equal length and
    elementwise equality. *)
Definition collection_order_spec {C A} `{Ord C} `{Ord A} (elems : C -> list A) : Prop :=
  forall x y : C,
  ((length (elems x) < length (elems y))%nat -> cmp x y = Lt)
  /\ ((length (elems y) < length (elems x))%nat -> cmp x y = Gt)
  /\ (length (elems x) = length (elems y) ->
      forall p q u v r1 r2, elems x = p ++ u :: r1 -> elems y = q ++ v :: r2 ->
      Forall2 (fun a b => ord_eq a b = true) p q -> ord_eq u v = false ->
      cmp x y = cmp u v)
  /\ (ord_eq x y = true <->
      length (elems x) = length (elems y)
      /\ Forall2 (fun a b => ord_eq a b = true) (elems x) (elems y)).

(** [c] is a strict total order whose [Equal] is equality. *)
Definition strict_total_order {T} (c : T -> T -> comparison) : Prop :=
  (forall x y, c x y = Eq <-> x = y)
  /\ (forall x y, c y x = CompOpp (c x y))
  /\ (forall x y z, c x y = Lt -> c y z = Lt -> c x z = Lt).

(** * Properties *)

(** ** Test vectors of section 8 *)

Example test_id_vector :
  Id_to_string Sha256.digest (mkId test_vector_id)
  = "TtF4d2QWbk5vzQGTEPrN48x6vwgAoAmKQ9cbp79inpQmcRKES"%string.
Proof. vm_compute. reflexivity. Qed.

Example test_id_zero_vector :
  Id_to_string Sha256.digest Id_empty = "11111111111111111111111111111111LpoYY"%string.
Proof. vm_compute. reflexivity. Qed.

Example test_node_id_vector :
  NodeId_to_string Sha256.digest (mkNodeId (firstn 20 test_vector_id))
  = "NodeID-6ZmBHXTqjknJoZtXbnJ6x7af863rXDTwx"%string
  /\ NodeId_from_str Sha256.digest "6ZmBHXTqjknJoZtXbnJ6x7af863rXDTwx"
     = Ok (mkNodeId (firstn 20 test_vector_id))
  /\ NodeId_from_str Sha256.digest "NodeID-6ZmBHXTqjknJoZtXbnJ6x7af863rXDTwx"
     = Ok (mkNodeId (firstn 20 test_vector_id)).
Proof. vm_compute. repeat split. Qed.

(** ** Digits in a base *)

Section Base.

Variable base : N.
Hypothesis base_gt_1 : (1 < base)%N.

Lemma to_le_zero : forall fuel, to_le base fuel 0 = [].
Proof. intros [|f]; reflexivity. Qed.

Lemma to_le_val : forall fuel n,
  (n < base ^ N.of_nat fuel)%N -> le_val base (to_le base fuel n) = n.
Proof.
  induction fuel as [|f IH]; intros n Hn.
  - simpl in Hn |- *. lia.
  - rewrite Nnat.Nat2N.inj_succ, N.pow_succ_r' in Hn. simpl.
    destruct (N.eqb_spec n 0) as [->|Hn0]; [reflexivity|].
    simpl. rewrite IH.
    + rewrite (N.div_mod n base) at 3 by lia. lia.
    + apply N.Div0.div_lt_upper_bound. lia.
Qed.

Lemma to_le_digits : forall fuel n d, In d (to_le base fuel n) -> (d < base)%N.
Proof.
  induction fuel as [|f IH]; intros n d Hd; simpl in Hd; [contradiction|].
  destruct (n =? 0)%N; [contradiction|].
  destruct Hd as [<-|Hd]; [apply N.mod_lt; lia | eauto].
Qed.

Lemma to_le_top : forall fuel n,
  n <> 0%N -> (n < base ^ N.of_nat fuel)%N ->
  exists l d, to_le base fuel n = l ++ [d] /\ d <> 0%N.
Proof.
  induction fuel as [|f IH]; intros n Hn0 Hn; [simpl in Hn; lia|].
  rewrite Nnat.Nat2N.inj_succ, N.pow_succ_r' in Hn. simpl.
  apply N.eqb_neq in Hn0 as Hb. rewrite Hb.
  destruct (N.eq_dec (n / base) 0) as [Hq|Hq].
  - exists [], (n mod base)%N. rewrite Hq, to_le_zero. split; [reflexivity|].
    pose proof (N.div_mod n base) as Hdm. rewrite Hq in Hdm. lia.
  - destruct (IH (n / base)%N Hq) as (l & d & Hl & Hd).
    + apply N.Div0.div_lt_upper_bound. lia.
    + exists (n mod base :: l)%N, d. rewrite Hl. split; [reflexivity|assumption].
Qed.

Lemma le_val_app : forall l1 l2,
  le_val base (l1 ++ l2) = (le_val base l1 + base ^ N.of_nat (length l1) * le_val base l2)%N.
Proof.
  induction l1 as [|d l1 IH]; intros l2; cbn [app le_val length].
  - change (N.of_nat 0) with 0%N. rewrite N.pow_0_r. lia.
  - rewrite IH, Nnat.Nat2N.inj_succ, N.pow_succ_r'. ring.
Qed.

Lemma le_val_bound : forall l,
  Forall (fun d => d < base)%N l -> (le_val base l < base ^ N.of_nat (length l))%N.
Proof.
  induction l as [|d l IH]; intros Hl; cbn [le_val length]; [simpl; lia|].
  inversion_clear Hl as [|? ? Hd Hl'].
  rewrite Nnat.Nat2N.inj_succ, N.pow_succ_r'.
  specialize (IH Hl'). nia.
Qed.

Lemma le_val_top : forall l d,
  d <> 0%N -> (base ^ N.of_nat (length l) <= le_val base (l ++ [d]))%N.
Proof.
  intros l d Hd. rewrite le_val_app. simpl. nia.
Qed.

Lemma canonical_tail : forall d l, canonical (d :: l) -> canonical l.
Proof.
  intros d l [H|(l' & t & H & Ht)]; [discriminate|].
  destruct l' as [|d' l'].
  - injection H as _ ->. left. reflexivity.
  - injection H as _ ->. right. eauto.
Qed.

Lemma le_val_canonical_nonzero : forall l,
  canonical l -> l <> [] -> le_val base l <> 0%N.
Proof.
  intros l [->|(l' & d & -> & Hd)] Hne; [contradiction|].
  pose proof (le_val_top l' d Hd). pose proof (N.pow_nonzero base (N.of_nat (length l'))).
  lia.
Qed.

Lemma to_le_le_val : forall l fuel,
  Forall (fun d => d < base)%N l -> canonical l ->
  (le_val base l < base ^ N.of_nat fuel)%N ->
  to_le base fuel (le_val base l) = l.
Proof.
  induction l as [|d l IH]; intros fuel Hl Hc Hv.
  - apply to_le_zero.
  - inversion_clear Hl as [|? ? Hd Hl'].
    pose proof (le_val_canonical_nonzero (d :: l) Hc ltac:(discriminate)) as Hnz.
    destruct fuel as [|f].
    { change (N.of_nat 0) with 0%N in Hv. rewrite N.pow_0_r in Hv. lia. }
    rewrite Nnat.Nat2N.inj_succ, N.pow_succ_r' in Hv.
    cbn [to_le le_val] in Hnz, Hv |- *. apply N.eqb_neq in Hnz. rewrite Hnz.
    assert (Hm : ((d + base * le_val base l) mod base = d)%N).
    { rewrite N.mul_comm, N.Div0.mod_add. apply N.mod_small. assumption. }
    assert (Hq : ((d + base * le_val base l) / base = le_val base l)%N).
    { rewrite N.mul_comm, N.div_add by lia. rewrite N.div_small by assumption.
      lia. }
    rewrite Hm, Hq, IH; [reflexivity|assumption|eapply canonical_tail; eassumption|nia].
Qed.

Lemma fold_be : forall ds acc,
  fold_left (fun acc d => acc * base + d)%N ds acc
  = (acc * base ^ N.of_nat (length ds) + le_val base (rev ds))%N.
Proof.
  induction ds as [|d ds IH]; intros acc; cbn [fold_left rev length].
  - change (N.of_nat 0) with 0%N. rewrite N.pow_0_r. cbn [le_val]. lia.
  - rewrite IH, le_val_app, length_rev, Nnat.Nat2N.inj_succ, N.pow_succ_r'.
    cbn [le_val]. ring.
Qed.

Lemma be_num_rev : forall ds, be_num base ds = le_val base (rev ds).
Proof. intros ds. unfold be_num. rewrite fold_be. lia. Qed.

Lemma size_bound : forall n, (n < base ^ N.of_nat (N.to_nat (N.size n)))%N.
Proof.
  intros n. rewrite Nnat.N2Nat.id.
  eapply N.lt_le_trans; [apply N.size_gt|].
  apply N.pow_le_mono_l. lia.
Qed.

Lemma be_num_digits_be : forall n, be_num base (digits_be base n) = n.
Proof.
  intros n. unfold digits_be. rewrite be_num_rev, rev_involutive.
  apply to_le_val, size_bound.
Qed.

End Base.

(** ** Bytes and the Base58 alphabet *)

Lemma byte_of_N_to_N : forall b, byte_of_N (Byte.to_N b) = b.
Proof. intros b. unfold byte_of_N. rewrite Byte.of_to_N. reflexivity. Qed.

Lemma to_N_byte_of_N : forall n, (n < 256)%N -> Byte.to_N (byte_of_N n) = n.
Proof.
  intros n Hn. unfold byte_of_N.
  destruct (Byte.of_N n) as [b|] eqn:E.
  - apply Byte.to_of_N. assumption.
  - apply Byte.of_N_None_iff in E. lia.
Qed.

Lemma to_N_zero : forall b, Byte.to_N b = 0%N -> b = x00.
Proof.
  intros b H. rewrite <- (byte_of_N_to_N b), H. reflexivity.
Qed.

Lemma b58_char_index : forall d,
  (d < 58)%N -> index_of (b58_char d) BASE58_ALPHABET = Some d.
Proof.
  intros d Hd.
  assert (Hall : forallb (fun k => match index_of (b58_char (N.of_nat k)) BASE58_ALPHABET with
                                   | Some e => (e =? N.of_nat k)%N
                                   | None => false
                                   end) (seq 0 58) = true) by (vm_compute; reflexivity).
  rewrite forallb_forall in Hall.
  specialize (Hall (N.to_nat d) ltac:(apply in_seq; lia)).
  rewrite Nnat.N2Nat.id in Hall.
  destruct (index_of (b58_char d) BASE58_ALPHABET) as [e|]; [|discriminate].
  apply N.eqb_eq in Hall. subst. reflexivity.
Qed.

Lemma b58_char_not_one : forall d,
  (d < 58)%N -> d <> 0%N -> b58_char d <> "1"%char.
Proof.
  intros d Hd Hd0 Heq.
  pose proof (b58_char_index d Hd) as H. rewrite Heq in H.
  vm_compute in H. injection H as H. symmetry in H. contradiction.
Qed.

Lemma get_in : forall s n c, String.get n s = Some c -> In c (list_ascii_of_string s).
Proof.
  induction s as [|c' s IH]; intros [|n] c H; simpl in H |- *; try discriminate.
  - left. injection H as ->. reflexivity.
  - right. eapply IH. eassumption.
Qed.

Lemma b58_char_safe : forall d, b58_safe (b58_char d) = true.
Proof.
  intros d.
  assert (Hall : forallb b58_safe (list_ascii_of_string BASE58_ALPHABET) = true)
    by (vm_compute; reflexivity).
  rewrite forallb_forall in Hall.
  unfold b58_char. destruct (String.get (N.to_nat d) BASE58_ALPHABET) as [c|] eqn:E.
  - apply Hall. eapply get_in. eassumption.
  - reflexivity.
Qed.

(** ** Leading runs *)

Lemma count_leading_repeat : forall {A} (p : A -> bool) x z l,
  p x = true -> count_leading p (repeat x z ++ l) = (z + count_leading p l)%nat.
Proof.
  intros A p x z l Hx. induction z as [|z IH]; simpl; [reflexivity|].
  rewrite Hx, IH. reflexivity.
Qed.

Lemma count_leading_split : forall {A} (p : A -> bool) l,
  Forall (fun x => p x = true) (firstn (count_leading p l) l)
  /\ (skipn (count_leading p l) l = []
      \/ exists x r, skipn (count_leading p l) l = x :: r /\ p x = false).
Proof.
  intros A p l. induction l as [|x l IH]; simpl.
  - split; [constructor | left; reflexivity].
  - destruct (p x) eqn:Ex; simpl.
    + destruct IH as [IH1 IH2]. split; [constructor; assumption | exact IH2].
    + split; [constructor | right; eauto].
Qed.

Lemma Forall_repeat_eq : forall {A} (x : A) l,
  Forall (fun y => y = x) l -> l = repeat x (length l).
Proof.
  intros A x l H. induction H as [|y l Hy _ IH]; simpl; [reflexivity|].
  rewrite Hy, <- IH. reflexivity.
Qed.

(** A byte buffer is its leading zero bytes followed by a rest that is
    empty or starts with a nonzero byte. *)
Lemma leading_zeros_split : forall data,
  let z := count_leading (fun b => Byte.eqb b x00) data in
  data = repeat x00 z ++ skipn z data
  /\ (skipn z data = [] \/ exists b r, skipn z data = b :: r /\ b <> x00).
Proof.
  intros data z.
  destruct (count_leading_split (fun b => Byte.eqb b x00) data) as [H1 H2].
  fold z in H1, H2. split.
  - assert (Hz : firstn z data = repeat x00 z).
    { rewrite (Forall_repeat_eq x00 (firstn z data)).
      - f_equal. apply firstn_length_le.
        unfold z. clear. induction data as [|x l IH]; simpl; [lia|].
        destruct (Byte.eqb x x00); simpl; lia.
      - eapply Forall_impl; [|exact H1]. intros b Hb. apply Byte.byte_dec_bl. exact Hb. }
    rewrite <- Hz. symmetry. apply firstn_skipn.
  - destruct H2 as [H2|(b & r & H2 & Hb)]; [left; exact H2|].
    right. exists b, r. split; [exact H2|]. intros ->. discriminate.
Qed.

(** ** Base58 round trip *)

Lemma be_value_le : forall l, be_value l = le_val 256 (rev (map Byte.to_N l)).
Proof. intros l. unfold be_value. apply be_num_rev; lia. Qed.

Lemma le_val_zeros : forall base z, le_val base (repeat 0%N z) = 0%N.
Proof. intros base z. induction z as [|z IH]; simpl; [reflexivity|]. rewrite IH. lia. Qed.

Lemma be_value_zeros : forall z rest, be_value (repeat x00 z ++ rest) = be_value rest.
Proof.
  intros z rest. rewrite !be_value_le, map_app, rev_app_distr, le_val_app by lia.
  replace (map Byte.to_N (repeat x00 z)) with (repeat 0%N z)
    by (induction z as [|z IH]; simpl; [reflexivity|]; rewrite <- IH; reflexivity).
  rewrite rev_repeat, le_val_zeros. lia.
Qed.

Lemma digits_be_props : forall base n, (1 < base)%N ->
  Forall (fun d => d < base)%N (digits_be base n)
  /\ (digits_be base n = [] \/ exists d r, digits_be base n = d :: r /\ d <> 0%N).
Proof.
  intros base n Hb. unfold digits_be. split.
  - apply Forall_rev, Forall_forall. intros d Hd. eapply to_le_digits; [|exact Hd]. lia.
  - destruct (N.eq_dec n 0) as [->|Hn].
    + left. rewrite to_le_zero. reflexivity.
    + right. destruct (to_le_top base Hb _ n Hn (size_bound base Hb n)) as (l & d & -> & Hd).
      exists d, (rev l). rewrite rev_app_distr. split; [reflexivity|exact Hd].
Qed.

Lemma traverse_index : forall ds,
  Forall (fun d => d < 58)%N ds ->
  traverse (fun c => index_of c BASE58_ALPHABET) (map b58_char ds) = Some ds.
Proof.
  intros ds H. induction H as [|d ds Hd _ IH]; cbn [map traverse]; [reflexivity|].
  rewrite b58_char_index by assumption. rewrite IH. reflexivity.
Qed.

Lemma bytes_be_be_value : forall rest,
  (rest = [] \/ exists b r, rest = b :: r /\ b <> x00) ->
  bytes_be (be_value rest) = rest.
Proof.
  intros rest Hrest. unfold bytes_be, digits_be.
  assert (Hc : canonical (rev (map Byte.to_N rest))).
  { destruct Hrest as [->|(b & r & -> & Hb)]; [left; reflexivity|].
    right. exists (rev (map Byte.to_N r)), (Byte.to_N b). split; [reflexivity|].
    intros H. apply Hb, to_N_zero, H. }
  assert (Hf : Forall (fun d => d < 256)%N (rev (map Byte.to_N rest))).
  { apply Forall_rev, Forall_map, Forall_forall. intros b _.
    pose proof (Byte.to_N_bounded b). lia. }
  rewrite be_value_le, to_le_le_val; [| lia | exact Hf | exact Hc | apply size_bound; lia].
  rewrite rev_involutive, map_map.
  rewrite map_ext with (g := fun b => b) by apply byte_of_N_to_N.
  apply map_id.
Qed.

Lemma bs58_decode_encode : forall data, bs58_decode (bs58_encode data) = Some data.
Proof.
  intros data. unfold bs58_encode, bs58_decode.
  rewrite list_ascii_of_string_of_list_ascii.
  destruct (leading_zeros_split data) as [Hdata Hrest].
  set (z := count_leading (fun b => Byte.eqb b x00) data) in *.
  set (rest := skipn z data) in *.
  assert (Hv : be_value data = be_value rest) by (rewrite Hdata at 1; apply be_value_zeros).
  rewrite Hv.
  destruct (digits_be_props 58 (be_value rest) ltac:(lia)) as [Hlt Hhead].
  set (ds := digits_be 58 (be_value rest)) in *.
  rewrite count_leading_repeat by reflexivity.
  assert (Hc : count_leading (fun c => Ascii.eqb c "1"%char) (map b58_char ds) = 0%nat).
  { destruct Hhead as [->|(d & r & Hds & Hd)]; [reflexivity|].
    rewrite Hds. cbn [map count_leading]. rewrite Hds in Hlt. inversion_clear Hlt as [|? ? Hd58 _].
    destruct (Ascii.eqb_spec (b58_char d) "1"%char) as [E|E]; [|reflexivity].
    exfalso. exact (b58_char_not_one d Hd58 Hd E). }
  rewrite Hc, Nat.add_0_r, skipn_app, skipn_all2 by (rewrite repeat_length; lia).
  rewrite repeat_length, Nat.sub_diag. simpl.
  rewrite traverse_index by exact Hlt.
  unfold ds. rewrite be_num_digits_be by lia.
  rewrite bytes_be_be_value by exact Hrest.
  rewrite <- Hdata. reflexivity.
Qed.

(** ** CB58 round trip and the shape of the text form *)

Lemma length_string_of_list_ascii : forall l,
  String.length (string_of_list_ascii l) = length l.
Proof. induction l as [|c l IH]; simpl; [reflexivity|]. rewrite IH. reflexivity. Qed.

Lemma substring_all : forall s, substring 0 (String.length s) s = s.
Proof. induction s as [|c s IH]; simpl; [reflexivity|]. rewrite IH. reflexivity. Qed.

Lemma ascii_char_boundary : forall c,
  is_ascii c = true -> negb (N.land (N_of_ascii c) 192 =? 128)%N = true.
Proof.
  intros c. destruct c as [[] [] [] [] [] [] [] []]; vm_compute;
    intros H; first [reflexivity | discriminate H].
Qed.

Section Codec.

Variable compute_sha256 : list byte -> list byte.
Hypothesis sha256_length : forall l, (CHECKSUM_LENGTH <= length (compute_sha256 l))%nat.

Lemma checksum_length : forall d, length (checksum compute_sha256 d) = CHECKSUM_LENGTH.
Proof.
  intros d. unfold checksum. rewrite length_skipn.
  specialize (sha256_length d). lia.
Qed.

Lemma cb58_roundtrip : forall d,
  decode_cb58_with_checksum compute_sha256 (encode_cb58_with_checksum compute_sha256 d) = Ok d.
Proof.
  intros d. unfold decode_cb58_with_checksum, encode_cb58_with_checksum.
  rewrite bs58_decode_encode, length_app, checksum_length.
  replace (length d + CHECKSUM_LENGTH <? CHECKSUM_LENGTH) with false
    by (symmetry; apply Nat.ltb_ge; lia).
  replace (length d + CHECKSUM_LENGTH - CHECKSUM_LENGTH)%nat with (length d) by lia.
  rewrite firstn_app, firstn_all, Nat.sub_diag, firstn_O, app_nil_r.
  rewrite skipn_app, skipn_all, Nat.sub_diag, skipn_O.
  destruct (list_eq_dec Byte.byte_eq_dec _ _) as [_|E]; [reflexivity|].
  exfalso. apply E. reflexivity.
Qed.

Lemma encode_chars_safe : forall d n c,
  String.get n (encode_cb58_with_checksum compute_sha256 d) = Some c -> b58_safe c = true.
Proof.
  intros d n c H. apply get_in in H.
  unfold encode_cb58_with_checksum, bs58_encode in H.
  rewrite list_ascii_of_string_of_list_ascii in H.
  apply in_app_or in H as [H|H].
  - apply repeat_spec in H. subst. reflexivity.
  - apply in_map_iff in H as (e & <- & _). apply b58_char_safe.
Qed.

Lemma digits_be_length : forall base n k, (1 < base)%N ->
  (base ^ N.of_nat k <= n)%N -> (k < length (digits_be base n))%nat.
Proof.
  intros base n k Hb Hn. unfold digits_be. rewrite length_rev.
  set (l := to_le base (N.to_nat (N.size n)) n).
  assert (Hv : le_val base l = n) by (apply to_le_val; [lia | apply size_bound; lia]).
  assert (Hf : Forall (fun d => d < base)%N l).
  { apply Forall_forall. intros d Hd. eapply to_le_digits; [|exact Hd]. lia. }
  pose proof (le_val_bound base Hb l Hf) as Hlt. rewrite Hv in Hlt.
  destruct (Nat.lt_ge_cases k (length l)) as [|Hk]; [assumption|].
  exfalso. assert (Hk' : (N.of_nat (length l) <= N.of_nat k)%N) by lia.
  pose proof (N.pow_le_mono_r base _ _ ltac:(lia) Hk'). lia.
Qed.

(** The text of a 20-byte payload has at least 7 characters. *)
Lemma encode_length_min : forall d, (20 <= length d)%nat ->
  (7 <= String.length (encode_cb58_with_checksum compute_sha256 d))%nat.
Proof.
  intros d Hd. unfold encode_cb58_with_checksum, bs58_encode.
  rewrite length_string_of_list_ascii, length_app, repeat_length, length_map.
  set (data := d ++ checksum compute_sha256 d).
  assert (Hlen : (24 <= length data)%nat)
    by (unfold data; rewrite length_app, checksum_length; unfold CHECKSUM_LENGTH; lia).
  destruct (leading_zeros_split data) as [Hdata Hrest].
  set (z := count_leading (fun b => Byte.eqb b x00) data) in *.
  set (rest := skipn z data) in *.
  destruct (Nat.lt_ge_cases z 7) as [Hz|Hz]; [|lia].
  assert (Hrl : (24 - z <= length rest)%nat)
    by (unfold rest; rewrite length_skipn; lia).
  clearbody rest z.
  destruct Hrest as [Hr|(b & r & Hr & Hb)]; [rewrite Hr in Hrl; cbn [length] in Hrl; lia|].
  assert (Hv : be_value data = be_value rest) by (rewrite Hdata at 1; apply be_value_zeros).
  assert (Hge : (256 ^ 16 <= be_value rest)%N).
  { rewrite Hr, be_value_le. cbn [map rev].
    eapply N.le_trans; [|apply le_val_top; [lia|]].
    - apply N.pow_le_mono_r; [lia|]. rewrite length_rev, length_map.
      rewrite Hr in Hrl. cbn [length] in Hrl. lia.
    - intros H. apply Hb, to_N_zero, H. }
  rewrite Hv.
  assert (H7 : (58 ^ N.of_nat 6 <= be_value rest)%N)
    by (eapply N.le_trans; [|exact Hge]; vm_compute; discriminate).
  pose proof (digits_be_length 58 (be_value rest) 6 ltac:(lia) H7). lia.
Qed.

Lemma encode_length_20 : forall d, length d = 20%nat ->
  (7 <= String.length (encode_cb58_with_checksum compute_sha256 d))%nat.
Proof. intros d Hd. apply encode_length_min. lia. Qed.

End Codec.

(** ** [strip_node_id_prefix] on text forms *)

Lemma chars_safe_ascii : forall s, chars_safe s -> chars_ascii s.
Proof.
  intros s Hs n c H. specialize (Hs n c H). unfold b58_safe in Hs.
  apply andb_prop in Hs as [Hs _]. exact Hs.
Qed.

Lemma get_length_none : forall s, String.get (String.length s) s = None.
Proof. induction s as [|c s IH]; [reflexivity|exact IH]. Qed.

Lemma get_none_length : forall s n, String.get n s = None -> (String.length s <= n)%nat.
Proof.
  induction s as [|c s IH]; intros [|n] H; simpl in H |- *; try discriminate; try lia.
  apply IH in H. lia.
Qed.

Lemma boundary_length : forall s, is_char_boundary s (String.length s) = true.
Proof.
  intros s. unfold is_char_boundary.
  destruct (String.length s) eqn:E; [reflexivity|].
  rewrite <- E, get_length_none. apply Nat.eqb_refl.
Qed.

Lemma boundary_ascii : forall s n, chars_ascii s -> (n <= String.length s)%nat ->
  is_char_boundary s n = true.
Proof.
  intros s n Hs Hn. unfold is_char_boundary. destruct n as [|m]; [reflexivity|].
  destruct (String.get (S m) s) as [c|] eqn:E.
  - apply ascii_char_boundary. eapply Hs. exact E.
  - apply get_none_length in E. apply Nat.eqb_eq. lia.
Qed.

Lemma chars_ascii_prefixed : forall s,
  chars_ascii s -> chars_ascii (NODE_ID_ENCODE_PREFIX ++ s).
Proof.
  intros s Hs n c H.
  destruct (Nat.lt_ge_cases n 7) as [Hn|Hn].
  - do 7 (destruct n as [|n]; [injection H as <-; reflexivity|]). lia.
  - replace n with ((n - 7) + String.length NODE_ID_ENCODE_PREFIX)%nat in H by (simpl; lia).
    rewrite <- append_correct2 in H. eapply Hs. exact H.
Qed.

Lemma strip_prefixed : forall s, chars_safe s ->
  strip_node_id_prefix (NODE_ID_ENCODE_PREFIX ++ s) = Ok s.
Proof.
  intros s Hs. pose proof (chars_ascii_prefixed s (chars_safe_ascii s Hs)) as Ht.
  unfold strip_node_id_prefix, str_index.
  change (String.length NODE_ID_ENCODE_PREFIX) with 7%nat.
  assert (Hlen : String.length (NODE_ID_ENCODE_PREFIX ++ s) = (7 + String.length s)%nat)
    by reflexivity.
  rewrite (boundary_ascii _ 7 Ht) by lia.
  rewrite (boundary_ascii _ 0 Ht) by lia.
  rewrite boundary_length, Nat.leb_refl.
  replace (7 <=? String.length (NODE_ID_ENCODE_PREFIX ++ s)) with true
    by (symmetry; apply Nat.leb_le; lia).
  cbn [andb Nat.leb bind].
  replace (substring 0 (7 - 0) (NODE_ID_ENCODE_PREFIX ++ s)) with NODE_ID_ENCODE_PREFIX
    by (destruct s; reflexivity).
  rewrite String.eqb_refl. f_equal.
  rewrite Hlen. replace (7 + String.length s - 7)%nat with (String.length s) by lia.
  change (substring 7 (String.length s) (NODE_ID_ENCODE_PREFIX ++ s))
    with (substring 0 (String.length s) s).
  apply substring_all.
Qed.

Lemma strip_unprefixed : forall s, chars_safe s -> (7 <= String.length s)%nat ->
  strip_node_id_prefix s = Ok s.
Proof.
  intros s Hs Hl. unfold strip_node_id_prefix, str_index.
  change (String.length NODE_ID_ENCODE_PREFIX) with 7%nat.
  pose proof (chars_safe_ascii s Hs) as Ha.
  rewrite (boundary_ascii _ 0 Ha), (boundary_ascii _ 7 Ha) by lia.
  replace (7 <=? String.length s) with true by (symmetry; apply Nat.leb_le; lia).
  cbn [bind andb Nat.leb].
  destruct (String.eqb_spec (substring 0 (7 - 0) s) NODE_ID_ENCODE_PREFIX) as [E|E];
    [|reflexivity].
  exfalso.
  assert (H4 : String.get 4 (substring 0 (7 - 0) s) = Some "I"%char) by (rewrite E; reflexivity).
  rewrite substring_correct1 in H4 by lia.
  specialize (Hs _ _ H4). discriminate Hs.
Qed.

Lemma encode_safe : forall sha d, chars_safe (encode_cb58_with_checksum sha d).
Proof. intros sha d n c. apply encode_chars_safe. Qed.

(** ** The reference SHA-256 has 32-byte digests *)

Lemma sha256_round_length : forall st kw, length (Sha256.round st kw) = length st.
Proof.
  intros st kw. unfold Sha256.round.
  destruct st as [|a [|b [|c [|d [|e [|f [|g [|h [|i st]]]]]]]]]; reflexivity.
Qed.

Lemma sha256_fold_round_length : forall l st,
  length (fold_left Sha256.round l st) = length st.
Proof.
  induction l as [|kw l IH]; intros st; simpl; [reflexivity|].
  rewrite IH. apply sha256_round_length.
Qed.

Lemma sha256_fold_compress_length : forall bs hs,
  length hs = 8%nat -> length (fold_left Sha256.compress bs hs) = 8%nat.
Proof.
  induction bs as [|b bs IH]; intros hs Hhs; simpl; [exact Hhs|].
  apply IH. unfold Sha256.compress.
  rewrite length_map, length_combine, sha256_fold_round_length, Hhs. reflexivity.
Qed.

Lemma sha256_digest_length : forall m, length (Sha256.digest m) = 32%nat.
Proof.
  intros m. unfold Sha256.digest.
  pose proof (sha256_fold_compress_length
                (Sha256.blocks (length (Sha256.pad m)) (Sha256.pad m)) Sha256.H0 eq_refl) as Hl.
  revert Hl. generalize (fold_left Sha256.compress
                           (Sha256.blocks (length (Sha256.pad m)) (Sha256.pad m)) Sha256.H0).
  intros l Hl.
  do 8 (destruct l as [|? l]; [discriminate Hl|]).
  destruct l; [reflexivity|discriminate Hl].
Qed.

Lemma sha256_digest_checksum : forall m, (CHECKSUM_LENGTH <= length (Sha256.digest m))%nat.
Proof. intros m. rewrite sha256_digest_length. unfold CHECKSUM_LENGTH. lia. Qed.

(** ** [from_slice] on buffers of the nominal length *)

Lemma Id_from_slice_nominal : forall b, length b = ID_LEN -> Id_from_slice b = Ok (mkId b).
Proof. intros b Hb. unfold Id_from_slice, assert. rewrite Hb. reflexivity. Qed.

Lemma ShortId_from_slice_nominal : forall b,
  length b = SHORT_ID_LEN -> ShortId_from_slice b = Ok (mkShortId b).
Proof. intros b Hb. unfold ShortId_from_slice, assert. rewrite Hb. reflexivity. Qed.

Lemma NodeId_from_slice_nominal : forall b,
  length b = NODE_ID_LEN -> NodeId_from_slice b = Ok (mkNodeId b).
Proof. intros b Hb. unfold NodeId_from_slice, assert. rewrite Hb. reflexivity. Qed.

(** ** C2: [from_slice] *)

(** C2 (amended).  [Id::from_slice] and [ShortId::from_slice] accept
    0..=nominal bytes and right-pad with zeros, and panic above the nominal
    length; [NodeId::from_slice] accepts exactly 20 bytes and panics on
    every other length, shorter ones included. *)
Theorem from_slice_contract :
  (forall d, Id_from_slice d =
     if length d <=? ID_LEN then Ok (mkId (d ++ repeat x00 (ID_LEN - length d)))
     else Panic)
  /\ (forall d, ShortId_from_slice d =
     if length d <=? SHORT_ID_LEN
     then Ok (mkShortId (d ++ repeat x00 (SHORT_ID_LEN - length d)))
     else Panic)
  /\ (forall d, NodeId_from_slice d =
     if length d =? NODE_ID_LEN then Ok (mkNodeId d) else Panic).
Proof.
  split; [|split]; intros d.
  - unfold Id_from_slice, assert, vec_resize.
    destruct (Nat.leb_spec (length d) ID_LEN) as [H|H]; cbn [bind]; [|reflexivity].
    destruct (Nat.ltb_spec (length d) ID_LEN) as [H'|H'].
    + reflexivity.
    + replace (ID_LEN - length d)%nat with 0%nat by lia. rewrite app_nil_r. reflexivity.
  - unfold ShortId_from_slice, assert, vec_resize.
    destruct (Nat.leb_spec (length d) SHORT_ID_LEN) as [H|H]; cbn [bind]; [|reflexivity].
    destruct (Nat.ltb_spec (length d) SHORT_ID_LEN) as [H'|H'].
    + reflexivity.
    + replace (SHORT_ID_LEN - length d)%nat with 0%nat by lia. rewrite app_nil_r.
      reflexivity.
  - unfold NodeId_from_slice, assert. change NODE_ID_LEN with SHORT_ID_LEN.
    destruct (length d =? SHORT_ID_LEN); reflexivity.
Qed.

(** C2 counterexample: [NodeId::from_slice] on the empty slice panics
    instead of returning the all-zero [NodeId]. *)
Lemma from_slice_node_id_empty_panics :
  NodeId_from_slice [] = Panic
  /\ ~ (forall d, (length d <= NODE_ID_LEN)%nat ->
          NodeId_from_slice d = Ok (mkNodeId (d ++ repeat x00 (NODE_ID_LEN - length d)))).
Proof.
  split; [reflexivity|].
  intros H. specialize (H [] ltac:(simpl; lia)). discriminate H.
Qed.

(** ** C3 and C4: text round trips *)

(** C3.  For every 20-byte [b] the text of [NodeId::from_slice(b)] is
    ["NodeID-"] followed by the CB58 text of [b], and [NodeId::from_str]
    parses it, with and without the prefix, to that same [NodeId]. *)
Theorem node_id_text_with_and_without_prefix :
  forall compute_sha256 b,
  (forall l, (CHECKSUM_LENGTH <= length (compute_sha256 l))%nat) ->
  length b = NODE_ID_LEN ->
  exists x, NodeId_from_slice b = Ok x
  /\ NodeId_to_string compute_sha256 x
     = (NODE_ID_ENCODE_PREFIX ++ encode_cb58_with_checksum compute_sha256 b)%string
  /\ NodeId_from_str compute_sha256 (NodeId_to_string compute_sha256 x) = Ok x
  /\ NodeId_from_str compute_sha256 (encode_cb58_with_checksum compute_sha256 b) = Ok x.
Proof.
  intros sha b Hsha Hb. exists (mkNodeId b).
  assert (Hs : NodeId_from_slice b = Ok (mkNodeId b))
    by (unfold NodeId_from_slice, assert; rewrite Hb; reflexivity).
  split; [exact Hs|]. split; [reflexivity|].
  split.
  - unfold NodeId_to_string, NodeId_from_str. cbn [node_id_d].
    rewrite strip_prefixed by apply encode_safe. cbn [bind].
    rewrite cb58_roundtrip by exact Hsha. exact Hs.
  - unfold NodeId_from_str.
    rewrite strip_unprefixed by (apply encode_safe || (apply encode_length_20; assumption)).
    cbn [bind]. rewrite cb58_roundtrip by exact Hsha. exact Hs.
Qed.

Lemma node_id_text_with_and_without_prefix_witness :
  length (repeat x00 NODE_ID_LEN) = NODE_ID_LEN
  /\ exists x, NodeId_from_slice (repeat x00 NODE_ID_LEN) = Ok x
  /\ NodeId_to_string Sha256.digest x
     = (NODE_ID_ENCODE_PREFIX
        ++ encode_cb58_with_checksum Sha256.digest (repeat x00 NODE_ID_LEN))%string
  /\ NodeId_from_str Sha256.digest (NodeId_to_string Sha256.digest x) = Ok x
  /\ NodeId_from_str Sha256.digest
       (encode_cb58_with_checksum Sha256.digest (repeat x00 NODE_ID_LEN)) = Ok x.
Proof.
  split; [reflexivity|].
  apply (node_id_text_with_and_without_prefix Sha256.digest (repeat x00 NODE_ID_LEN)).
  - apply sha256_digest_checksum.
  - reflexivity.
Defined.

(** C4.  For every buffer [b] of the nominal length,
    [parse(to_string(from_slice(b))) == from_slice(b)] for [Id], [ShortId]
    and [NodeId]. *)
Theorem text_round_trip :
  forall compute_sha256,
  (forall l, (CHECKSUM_LENGTH <= length (compute_sha256 l))%nat) ->
  (forall b, length b = ID_LEN ->
     exists x, Id_from_slice b = Ok x
     /\ Id_from_str compute_sha256 (Id_to_string compute_sha256 x) = Ok x)
  /\ (forall b, length b = SHORT_ID_LEN ->
     exists x, ShortId_from_slice b = Ok x
     /\ ShortId_from_str compute_sha256 (ShortId_to_string compute_sha256 x) = Ok x)
  /\ (forall b, length b = NODE_ID_LEN ->
     exists x, NodeId_from_slice b = Ok x
     /\ NodeId_from_str compute_sha256 (NodeId_to_string compute_sha256 x) = Ok x).
Proof.
  intros sha Hsha. split; [|split]; intros b Hb.
  - exists (mkId b). pose proof (Id_from_slice_nominal b Hb) as Hs.
    split; [exact Hs|].
    unfold Id_from_str, Id_to_string. cbn [id_d].
    rewrite cb58_roundtrip by exact Hsha. exact Hs.
  - exists (mkShortId b). pose proof (ShortId_from_slice_nominal b Hb) as Hs.
    split; [exact Hs|].
    unfold ShortId_from_str, ShortId_to_string. cbn [short_id_d].
    rewrite cb58_roundtrip by exact Hsha. exact Hs.
  - exists (mkNodeId b). pose proof (NodeId_from_slice_nominal b Hb) as Hs.
    split; [exact Hs|].
    unfold NodeId_to_string, NodeId_from_str. cbn [node_id_d].
    rewrite strip_prefixed by apply encode_safe. cbn [bind].
    rewrite cb58_roundtrip by exact Hsha. exact Hs.
Qed.

Lemma text_round_trip_witness :
  exists x, Id_from_slice test_vector_id = Ok x
  /\ Id_from_str Sha256.digest (Id_to_string Sha256.digest x) = Ok x.
Proof.
  apply (proj1 (text_round_trip Sha256.digest sha256_digest_checksum)).
  vm_compute. reflexivity.
Defined.

(** ** Lemmas on the orders *)

Lemma then_with_Eq : forall f, then_with Eq f = f tt.
Proof. reflexivity. Qed.

Lemma ord_eq_true : forall {A} `{Ord A} (x y : A), ord_eq x y = true <-> cmp x y = Eq.
Proof. intros A H x y. unfold ord_eq. destruct (cmp x y); split; congruence. Qed.

Lemma slice_cmp_eq_iff : forall {A} `{Ord A} (a b : list A),
  slice_cmp a b = Eq <-> Forall2 (fun x y => cmp x y = Eq) a b.
Proof.
  intros A H. induction a as [|x a IH]; intros [|y b]; cbn [slice_cmp].
  - split; constructor.
  - split; [discriminate|intros Hf; inversion Hf].
  - split; [discriminate|intros Hf; inversion Hf].
  - split.
    + destruct (cmp x y) eqn:E; cbn [then_with]; try discriminate.
      intros Hs. constructor; [exact E|]. apply IH. exact Hs.
    + intros Hf. inversion_clear Hf as [|? ? ? ? Hxy Hf']. rewrite Hxy.
      apply IH. exact Hf'.
Qed.

Lemma slice_cmp_app_eq : forall {A} `{Ord A} (p q l1 l2 : list A),
  Forall2 (fun x y => cmp x y = Eq) p q -> slice_cmp (p ++ l1) (q ++ l2) = slice_cmp l1 l2.
Proof.
  intros A H p q l1 l2 Hf. induction Hf as [|x y p q Hxy Hf IH]; [reflexivity|].
  cbn [app slice_cmp]. rewrite Hxy. exact IH.
Qed.

Lemma slice_cmp_first_diff : forall {A} `{Ord A} (x y : A) a b,
  cmp x y <> Eq -> slice_cmp (x :: a) (y :: b) = cmp x y.
Proof.
  intros A H x y a b Hxy. cbn [slice_cmp].
  destruct (cmp x y); [congruence|reflexivity|reflexivity].
Qed.

Lemma u8_cmp_eq : forall a b : byte, cmp a b = Eq <-> a = b.
Proof.
  intros a b. unfold cmp, Ord_u8. rewrite N.compare_eq_iff. split; [|intros ->; reflexivity].
  intros Hab. rewrite <- (byte_of_N_to_N a), <- (byte_of_N_to_N b), Hab. reflexivity.
Qed.

Lemma Forall2_u8_eq : forall a b : list byte,
  Forall2 (fun x y => cmp x y = Eq) a b <-> a = b.
Proof.
  induction a as [|x a IH]; intros [|y b]; split; intros Hab; try reflexivity;
    try constructor; try discriminate; try (inversion Hab; fail).
  - inversion_clear Hab as [|? ? ? ? Hxy Hf]. apply u8_cmp_eq in Hxy.
    apply IH in Hf. subst. reflexivity.
  - injection Hab as -> ->. apply u8_cmp_eq. reflexivity.
  - injection Hab as -> ->. apply IH. reflexivity.
Qed.

Lemma slice_cmp_bytes_eq : forall a b : list byte, slice_cmp a b = Eq <-> a = b.
Proof. intros a b. rewrite slice_cmp_eq_iff. apply Forall2_u8_eq. Qed.

Lemma byte_to_N_lt : forall b, (Byte.to_N b < 256)%N.
Proof. intros b. apply N.ltb_lt. destruct b; reflexivity. Qed.

Lemma be_value_cons : forall x l,
  be_value (x :: l) = (Byte.to_N x * 256 ^ N.of_nat (length l) + be_value l)%N.
Proof.
  intros x l. rewrite !be_value_le. cbn [map rev].
  rewrite le_val_app, length_rev, length_map by lia. cbn [le_val]. lia.
Qed.

Lemma be_value_bound : forall l, (be_value l < 256 ^ N.of_nat (length l))%N.
Proof.
  intros l. rewrite be_value_le.
  replace (length l) with (length (rev (map Byte.to_N l)))
    by (rewrite length_rev, length_map; reflexivity).
  apply le_val_bound; [lia|].
  apply Forall_forall. intros d Hd. apply in_rev, in_map_iff in Hd.
  destruct Hd as (b & <- & _). apply byte_to_N_lt.
Qed.

Lemma compare_digits : forall P a b x y, (a < P)%N -> (b < P)%N ->
  N.compare (x * P + a) (y * P + b) = then_with (N.compare x y) (fun _ => N.compare a b).
Proof.
  intros P a b x y Ha Hb.
  destruct (N.compare_spec x y) as [->|Hxy|Hxy]; cbn [then_with].
  - destruct (N.compare_spec a b) as [->|Hab|Hab].
    + apply N.compare_eq_iff. reflexivity.
    + apply N.compare_lt_iff. lia.
    + apply N.compare_gt_iff. lia.
  - apply N.compare_lt_iff. assert (x * P + P <= y * P)%N by nia. lia.
  - apply N.compare_gt_iff. assert (y * P + P <= x * P)%N by nia. lia.
Qed.

Lemma slice_cmp_be_value : forall a b : list byte,
  length a = length b -> slice_cmp a b = N.compare (be_value a) (be_value b).
Proof.
  induction a as [|x a IH]; intros [|y b] Hl; try discriminate; [reflexivity|].
  injection Hl as Hl. cbn [slice_cmp]. rewrite !be_value_cons, <- Hl.
  rewrite compare_digits by (first [apply be_value_bound | rewrite Hl; apply be_value_bound]).
  rewrite IH by exact Hl. reflexivity.
Qed.

Lemma byte_order_holds : forall {T} `{Ord T} (bytes : T -> list byte),
  (forall x y, cmp x y = slice_cmp (bytes x) (bytes y)) ->
  forall x y, length (bytes x) = length (bytes y) -> byte_order_spec bytes x y.
Proof.
  intros T H bytes Hc x y Hl. unfold byte_order_spec.
  split; [|split; [|split; [|split]]].
  - rewrite Hc. apply slice_cmp_be_value. exact Hl.
  - unfold exactly_one, ord_lt, ord_eq, ord_gt, partial_cmp.
    destruct (cmp x y); reflexivity.
  - rewrite ord_eq_true, Hc. apply slice_cmp_bytes_eq.
  - rewrite !Hc, !slice_cmp_be_value by congruence. apply N.compare_antisym.
  - intros p u v r1 r2 Hx Hy Huv. rewrite Hc, Hx, Hy, slice_cmp_app_eq.
    + rewrite slice_cmp_first_diff; [reflexivity|].
      rewrite u8_cmp_eq. exact Huv.
    + apply Forall2_u8_eq. reflexivity.
Qed.

Lemma byte_order_trans : forall {T} `{Ord T} (bytes : T -> list byte) (n : nat),
  (forall x y, cmp x y = slice_cmp (bytes x) (bytes y)) ->
  forall x y z, length (bytes x) = n -> length (bytes y) = n -> length (bytes z) = n ->
  ord_lt x y = true -> ord_lt y z = true -> ord_lt x z = true.
Proof.
  intros T H bytes n Hc x y z Hx Hy Hz.
  unfold ord_lt, partial_cmp. rewrite !Hc, !slice_cmp_be_value by congruence.
  destruct (N.compare_spec (be_value (bytes x)) (be_value (bytes y))); try discriminate.
  destruct (N.compare_spec (be_value (bytes y)) (be_value (bytes z))); try discriminate.
  intros _ _. replace (N.compare (be_value (bytes x)) (be_value (bytes z))) with Lt;
    [reflexivity|]. symmetry. apply N.compare_lt_iff. lia.
Qed.

Lemma length_first_cmp_holds : forall {A} `{Ord A} (a b : list A),
  ((length a < length b)%nat -> length_first_cmp a b = Lt)
  /\ ((length b < length a)%nat -> length_first_cmp a b = Gt)
  /\ (length a = length b ->
      forall p q u v r1 r2, a = p ++ u :: r1 -> b = q ++ v :: r2 ->
      Forall2 (fun x y => ord_eq x y = true) p q -> ord_eq u v = false ->
      length_first_cmp a b = cmp u v)
  /\ (length_first_cmp a b = Eq <->
      length a = length b /\ Forall2 (fun x y => ord_eq x y = true) a b).
Proof.
  intros A H a b. unfold length_first_cmp.
  change (@cmp nat Ord_usize (length a) (length b)) with (Nat.compare (length a) (length b)).
  assert (Hf : forall p q, Forall2 (fun x y => ord_eq x y = true) p q
                           <-> Forall2 (fun x y => cmp x y = Eq) p q).
  { intros p q. split; apply Forall2_impl; intros x y; apply ord_eq_true. }
  split; [|split; [|split]].
  - intros Hl. apply Nat.compare_lt_iff in Hl. rewrite Hl. reflexivity.
  - intros Hl. apply Nat.compare_gt_iff in Hl. rewrite Hl. reflexivity.
  - intros Hl p q u v r1 r2 Ha Hb Hpq Huv. rewrite Hl, Nat.compare_refl, then_with_Eq.
    rewrite Ha, Hb, slice_cmp_app_eq by (apply Hf; exact Hpq).
    apply slice_cmp_first_diff. intros E. apply ord_eq_true in E. congruence.
  - rewrite Hf, <- slice_cmp_eq_iff. destruct (Nat.compare_spec (length a) (length b)) as [Hl|Hl|Hl].
    + rewrite then_with_Eq. split; [intros E; split; auto|].
      intros [_ E]. exact E.
    + cbn [then_with]. split; [discriminate|]. intros [E _]. lia.
    + cbn [then_with]. split; [discriminate|]. intros [E _]. lia.
Qed.

Lemma collection_order_holds : forall {C A} `{Ord C} `{Ord A} (elems : C -> list A),
  (forall x y, cmp x y = length_first_cmp (elems x) (elems y)) ->
  collection_order_spec elems.
Proof.
  intros C A HC HA elems Hc x y. rewrite ord_eq_true, !Hc. apply length_first_cmp_holds.
Qed.

(** ** C5: the collection order *)

(** C5.  On [Ids], [ShortIds] and [NodeIds] the shorter collection is
    less whatever its elements; at equal lengths the first pair of unequal
    elements decides, by the element order; two collections are equal iff
    they have the same length and their elements are pairwise equal. *)
Theorem collection_order :
  collection_order_spec ids_0 /\ collection_order_spec short_ids_0
  /\ collection_order_spec node_ids_0.
Proof.
  split; [|split]; apply collection_order_holds; reflexivity.
Qed.

Lemma collection_order_witness :
  cmp (mkIds [mkId test_vector_id; mkId test_vector_id]) (mkIds [Id_empty; Id_empty; Id_empty]) = Lt.
Proof.
  apply (proj1 (proj1 collection_order _ _)). cbn. lia.
Defined.

(** ** C6: the order on identifiers *)

(** C6.  On [Id], [ShortId] and [NodeId] values of the nominal length
    (which is what [from_slice] builds), [cmp] is the unsigned big-endian
    comparison of the byte buffers, most significant byte first: exactly one
    of [<], [==], [>] holds, [==] means equal bytes, the order is
    antisymmetric and transitive, and the first differing byte decides. *)
Theorem identifier_order_total :
  (forall x y : Id, length (id_d x) = ID_LEN -> length (id_d y) = ID_LEN ->
     byte_order_spec id_d x y)
  /\ (forall x y z : Id,
     length (id_d x) = ID_LEN -> length (id_d y) = ID_LEN -> length (id_d z) = ID_LEN ->
     ord_lt x y = true -> ord_lt y z = true -> ord_lt x z = true)
  /\ (forall x y : ShortId,
     length (short_id_d x) = SHORT_ID_LEN -> length (short_id_d y) = SHORT_ID_LEN ->
     byte_order_spec short_id_d x y)
  /\ (forall x y z : ShortId,
     length (short_id_d x) = SHORT_ID_LEN -> length (short_id_d y) = SHORT_ID_LEN ->
     length (short_id_d z) = SHORT_ID_LEN ->
     ord_lt x y = true -> ord_lt y z = true -> ord_lt x z = true)
  /\ (forall x y : NodeId,
     length (node_id_d x) = NODE_ID_LEN -> length (node_id_d y) = NODE_ID_LEN ->
     byte_order_spec node_id_d x y)
  /\ (forall x y z : NodeId,
     length (node_id_d x) = NODE_ID_LEN -> length (node_id_d y) = NODE_ID_LEN ->
     length (node_id_d z) = NODE_ID_LEN ->
     ord_lt x y = true -> ord_lt y z = true -> ord_lt x z = true).
Proof.
  split; [|split; [|split; [|split; [|split]]]].
  - intros x y Hx Hy. apply byte_order_holds; [reflexivity|congruence].
  - apply (byte_order_trans id_d ID_LEN). reflexivity.
  - intros x y Hx Hy. apply byte_order_holds; [reflexivity|congruence].
  - apply (byte_order_trans short_id_d SHORT_ID_LEN). reflexivity.
  - intros x y Hx Hy. apply byte_order_holds; [reflexivity|congruence].
  - apply (byte_order_trans node_id_d NODE_ID_LEN). reflexivity.
Qed.

Lemma identifier_order_total_witness :
  byte_order_spec id_d Id_empty (mkId test_vector_id).
Proof.
  apply (proj1 identifier_order_total); reflexivity.
Defined.

(** ** C7: hashing agrees with equality *)

(** C7.  For [Id], [ShortId] and [NodeId], [x == y] implies that [hash]
    feeds any hasher the same input for [x] and [y]. *)
Theorem hash_consistent_with_eq :
  (forall S (h : Hasher S) st (x y : Id), ord_eq x y = true -> Id_hash h st x = Id_hash h st y)
  /\ (forall S (h : Hasher S) st (x y : ShortId),
      ord_eq x y = true -> ShortId_hash h st x = ShortId_hash h st y)
  /\ (forall S (h : Hasher S) st (x y : NodeId),
      ord_eq x y = true -> NodeId_hash h st x = NodeId_hash h st y).
Proof.
  split; [|split]; intros S h st x y Hxy; apply ord_eq_true, slice_cmp_bytes_eq in Hxy.
  - unfold Id_hash. rewrite Hxy. reflexivity.
  - unfold ShortId_hash. rewrite Hxy. reflexivity.
  - unfold NodeId_hash. rewrite Hxy. reflexivity.
Qed.

Lemma hash_consistent_with_eq_witness :
  Id_hash recording_hasher [] Id_empty = Id_hash recording_hasher [] (mkId (repeat x00 32)).
Proof.
  apply (proj1 hash_consistent_with_eq). reflexivity.
Defined.

(** ** C8: [NodeId::short_id] *)

(** C8.  For every 20-byte [b], [NodeId::from_slice(b).short_id()] is
    [ShortId::from_slice(b)], and that [ShortId] holds the bytes of the
    [NodeId] unchanged. *)
Theorem node_id_short_id_same_bytes :
  forall b, length b = NODE_ID_LEN ->
  exists x s, NodeId_from_slice b = Ok x
  /\ NodeId_short_id x = ShortId_from_slice b
  /\ ShortId_from_slice b = Ok s
  /\ short_id_d s = node_id_d x.
Proof.
  intros b Hb. exists (mkNodeId b), (mkShortId b).
  split; [apply NodeId_from_slice_nominal; exact Hb|].
  split; [reflexivity|].
  split; [apply ShortId_from_slice_nominal; exact Hb|reflexivity].
Qed.

Lemma node_id_short_id_same_bytes_witness :
  exists x s, NodeId_from_slice (firstn 20 test_vector_id) = Ok x
  /\ NodeId_short_id x = ShortId_from_slice (firstn 20 test_vector_id)
  /\ ShortId_from_slice (firstn 20 test_vector_id) = Ok s
  /\ short_id_d s = node_id_d x.
Proof.
  apply node_id_short_id_same_bytes. reflexivity.
Defined.

(** ** C9 and C10: the serde bindings and parsing failures *)

Lemma decode_no_panic : forall sha s, decode_cb58_with_checksum sha s <> Panic.
Proof.
  intros sha s. unfold decode_cb58_with_checksum.
  destruct (bs58_decode s); [|discriminate].
  destruct (_ <? _); [discriminate|]. destruct (list_eq_dec _ _ _); discriminate.
Qed.

Lemma strip_no_err : forall s e, strip_node_id_prefix s <> Err e.
Proof.
  intros s e. unfold strip_node_id_prefix, str_index.
  destruct (_ && _ && _ && _); cbn [bind]; [|discriminate].
  destruct (String.eqb _ _); [|discriminate]. destruct (_ && _ && _ && _); discriminate.
Qed.

Lemma Id_from_slice_panic : forall d, Id_from_slice d = Panic <-> (ID_LEN < length d)%nat.
Proof.
  intros d. unfold Id_from_slice, assert.
  destruct (Nat.leb_spec (length d) ID_LEN); cbn [bind]; split; intros H'; try lia;
    try reflexivity; cbv zeta in H'; destruct (_ <? _); discriminate.
Qed.

Lemma ShortId_from_slice_panic : forall d,
  ShortId_from_slice d = Panic <-> (SHORT_ID_LEN < length d)%nat.
Proof.
  intros d. unfold ShortId_from_slice, assert.
  destruct (Nat.leb_spec (length d) SHORT_ID_LEN); cbn [bind]; split; intros H'; try lia;
    try reflexivity; cbv zeta in H'; destruct (_ <? _); discriminate.
Qed.

Lemma NodeId_from_slice_panic : forall d,
  NodeId_from_slice d = Panic <-> length d <> NODE_ID_LEN.
Proof.
  intros d. unfold NodeId_from_slice, assert. change NODE_ID_LEN with SHORT_ID_LEN.
  destruct (Nat.eqb_spec (length d) SHORT_ID_LEN); cbn [bind]; split; intros H';
    try discriminate; try reflexivity; congruence.
Qed.

(** C9 counterexample: the text of 33 zero bytes is valid CB58, yet the
    required [Id] deserializer does not return an error on it: it panics
    in [Id::from_slice]. *)
Lemma must_deserialize_id_overlong_panics :
  must_deserialize_id Sha256.digest
    (VString (encode_cb58_with_checksum Sha256.digest (repeat x00 33))) = Panic.
Proof. vm_compute. reflexivity. Qed.

(** C9 (amended).  The optional deserializers map null to [None] and
    otherwise return what the required ones return, in [Some].  The
    required deserializers return an error on null, on a value that is not
    a string, and on a string that [from_str] rejects with an error, and
    otherwise yield the parsed identifier.  [from_str] panics, so the
    deserializer panics instead of returning an error, exactly when the
    CB58-decoded payload is longer than the nominal length ([Id],
    [ShortId]) or is not 20 bytes long ([NodeId]), or, for [NodeId], when
    [strip_node_id_prefix] panics. *)
Theorem serde_binding_modes :
  forall sha,
  deserialize_id sha VNull = Ok None
  /\ deserialize_short_id sha VNull = Ok None
  /\ deserialize_node_id sha VNull = Ok None
  /\ (forall v, v <> VNull -> deserialize_id sha v = (x <- must_deserialize_id sha v ;; Ok (Some x)))
  /\ (forall v, v <> VNull ->
      deserialize_short_id sha v = (x <- must_deserialize_short_id sha v ;; Ok (Some x)))
  /\ (forall v, v <> VNull ->
      deserialize_node_id sha v = (x <- must_deserialize_node_id sha v ;; Ok (Some x)))
  /\ (forall v, must_deserialize_id sha v =
      match v with
      | VNull => Err (CustomError "empty Id from deserialization")
      | VString s => map_err custom (Id_from_str sha s)
      | VOther => Err InvalidType
      end)
  /\ (forall v, must_deserialize_short_id sha v =
      match v with
      | VNull => Err (CustomError "empty ShortId from deserialization")
      | VString s => map_err custom (ShortId_from_str sha s)
      | VOther => Err InvalidType
      end)
  /\ (forall v, must_deserialize_node_id sha v =
      match v with
      | VNull => Err (CustomError "empty NodeId from deserialization")
      | VString s => map_err custom (NodeId_from_str sha s)
      | VOther => Err InvalidType
      end)
  /\ (forall s, Id_from_str sha s = Panic <->
      exists d, decode_cb58_with_checksum sha s = Ok d /\ (ID_LEN < length d)%nat)
  /\ (forall s, ShortId_from_str sha s = Panic <->
      exists d, decode_cb58_with_checksum sha s = Ok d /\ (SHORT_ID_LEN < length d)%nat)
  /\ (forall s, NodeId_from_str sha s = Panic <->
      strip_node_id_prefix s = Panic
      \/ exists p d, strip_node_id_prefix s = Ok p
         /\ decode_cb58_with_checksum sha p = Ok d /\ length d <> NODE_ID_LEN).
Proof.
  intros sha.
  split; [reflexivity|]. split; [reflexivity|]. split; [reflexivity|].
  split; [intros [|s|] Hv; [contradiction| |reflexivity];
          unfold deserialize_id, must_deserialize_id, Option_deserialize, fmt_id;
          cbn [String_deserialize bind]; destruct (map_err _ _); reflexivity|].
  split; [intros [|s|] Hv; [contradiction| |reflexivity];
          unfold deserialize_short_id, must_deserialize_short_id, Option_deserialize,
            fmt_short_id;
          cbn [String_deserialize bind]; destruct (map_err _ _); reflexivity|].
  split; [intros [|s|] Hv; [contradiction| |reflexivity];
          unfold deserialize_node_id, must_deserialize_node_id, Option_deserialize,
            fmt_node_id;
          cbn [String_deserialize bind]; destruct (map_err _ _); reflexivity|].
  split; [intros [|s|]; [reflexivity| |reflexivity];
          unfold must_deserialize_id, Option_deserialize, fmt_id;
          cbn [String_deserialize bind]; destruct (map_err _ _); reflexivity|].
  split; [intros [|s|]; [reflexivity| |reflexivity];
          unfold must_deserialize_short_id, Option_deserialize, fmt_short_id;
          cbn [String_deserialize bind]; destruct (map_err _ _); reflexivity|].
  split; [intros [|s|]; [reflexivity| |reflexivity];
          unfold must_deserialize_node_id, Option_deserialize, fmt_node_id;
          cbn [String_deserialize bind]; destruct (map_err _ _); reflexivity|].
  split; [|split].
  - intros s. unfold Id_from_str. pose proof (decode_no_panic sha s) as Hn.
    destruct (decode_cb58_with_checksum sha s) as [d|e|]; cbn [map_err bind];
      [|split; [discriminate|intros (d & Hd & _); discriminate]|contradiction].
    rewrite Id_from_slice_panic. split; [intros H'; exists d; auto|].
    intros (d' & Hd & Hl). injection Hd as <-. exact Hl.
  - intros s. unfold ShortId_from_str. pose proof (decode_no_panic sha s) as Hn.
    destruct (decode_cb58_with_checksum sha s) as [d|e|]; cbn [map_err bind];
      [|split; [discriminate|intros (d & Hd & _); discriminate]|contradiction].
    rewrite ShortId_from_slice_panic. split; [intros H'; exists d; auto|].
    intros (d' & Hd & Hl). injection Hd as <-. exact Hl.
  - intros s. unfold NodeId_from_str. pose proof (strip_no_err s) as He.
    destruct (strip_node_id_prefix s) as [p|e|]; cbn [bind];
      [|exfalso; eapply He; reflexivity|split; [intros _; left; reflexivity|reflexivity]].
    pose proof (decode_no_panic sha p) as Hn.
    destruct (decode_cb58_with_checksum sha p) as [d|e|] eqn:Ed; cbn [map_err bind].
    + rewrite NodeId_from_slice_panic. split; [intros H'; right; exists p, d; auto|].
      intros [Hs|(p' & d' & Hp & Hd & Hl)]; [discriminate|].
      injection Hp as <-. rewrite Ed in Hd. injection Hd as <-. exact Hl.
    + split; [discriminate|]. intros [Hs|(p' & d' & Hp & Hd & _)]; [discriminate|].
      injection Hp as <-. rewrite Ed in Hd. discriminate.
    + contradiction.
Qed.

Lemma serde_binding_modes_witness :
  deserialize_id Sha256.digest (VString "11111111111111111111111111111111LpoYY")
  = (x <- must_deserialize_id Sha256.digest (VString "11111111111111111111111111111111LpoYY") ;;
     Ok (Some x)).
Proof.
  apply (serde_binding_modes Sha256.digest). discriminate.
Defined.

(** C10.  [NodeId::from_str] panics, instead of returning an error, on
    every string shorter than the 7-byte prefix ["NodeID-"]: the slice
    [&addr[0..7]] in [strip_node_id_prefix] is out of range. *)
Theorem node_id_from_str_short_panics :
  forall sha s, (String.length s < String.length NODE_ID_ENCODE_PREFIX)%nat ->
  NodeId_from_str sha s = Panic.
Proof.
  intros sha s Hs. unfold NodeId_from_str, strip_node_id_prefix, str_index. cbv zeta.
  destruct (Nat.leb_spec (String.length NODE_ID_ENCODE_PREFIX) (String.length s)) as [H'|H'];
    [lia|].
  reflexivity.
Qed.

Lemma node_id_from_str_short_panics_witness :
  NodeId_from_str Sha256.digest EmptyString = Panic.
Proof.
  apply node_id_from_str_short_panics. cbn. lia.
Defined.

(** ** C1: [Id::prefix] *)

Lemma length_le_bytes : forall k v, length (le_bytes k v) = k.
Proof. induction k as [|k IH]; intros v; cbn [le_bytes length]; [reflexivity|]. rewrite IH. reflexivity. Qed.

Lemma length_u64_be : forall v, length (u64_be v) = U64_LEN.
Proof. intros v. unfold u64_be. rewrite length_rev. apply length_le_bytes. Qed.

Lemma length_concat_u64 : forall l, length (concat (map u64_be l)) = (U64_LEN * length l)%nat.
Proof.
  induction l as [|v l IH]; cbn [map concat length]; [reflexivity|].
  rewrite length_app, length_u64_be, IH. unfold U64_LEN. lia.
Qed.

Lemma pack_u64_fits : forall p v, (length (packed p) + U64_LEN <= max_size p)%nat ->
  discard p (pack_u64 p v) = mkPacker (max_size p) (packed p ++ u64_be v).
Proof.
  intros p v H. unfold discard, pack_u64, pack_bytes. rewrite length_u64_be.
  destruct (Nat.leb_spec (length (packed p) + U64_LEN) (max_size p)); [reflexivity|lia].
Qed.

Lemma pack_u64_full : forall p v, (max_size p < length (packed p) + U64_LEN)%nat ->
  discard p (pack_u64 p v) = p.
Proof.
  intros p v H. unfold discard, pack_u64, pack_bytes. rewrite length_u64_be.
  destruct (Nat.leb_spec (length (packed p) + U64_LEN) (max_size p)); [lia|reflexivity].
Qed.

Lemma pack_fold_full : forall ps p, (max_size p < length (packed p) + U64_LEN)%nat ->
  fold_left (fun p pfx => discard p (pack_u64 p pfx)) ps p = p.
Proof.
  induction ps as [|v ps IH]; intros p H; cbn [fold_left]; [reflexivity|].
  rewrite pack_u64_full by exact H. apply IH. exact H.
Qed.

(** Packing the tags one by one packs the first [j] of them: all of them,
    or as many as fit before the next one would overflow. *)
Lemma pack_fold : forall ps p, exists j, (j <= length ps)%nat
  /\ max_size (fold_left (fun p pfx => discard p (pack_u64 p pfx)) ps p) = max_size p
  /\ packed (fold_left (fun p pfx => discard p (pack_u64 p pfx)) ps p)
     = packed p ++ concat (map u64_be (firstn j ps))
  /\ (j = length ps
      \/ (max_size p
          < length (packed (fold_left (fun p pfx => discard p (pack_u64 p pfx)) ps p))
            + U64_LEN)%nat).
Proof.
  induction ps as [|v ps IH]; intros p; cbn [fold_left].
  - exists 0%nat. cbn [firstn map concat]. rewrite app_nil_r. auto.
  - destruct (Nat.le_gt_cases (length (packed p) + U64_LEN) (max_size p)) as [Hf|Hf].
    + rewrite pack_u64_fits by exact Hf.
      destruct (IH (mkPacker (max_size p) (packed p ++ u64_be v)))
        as (j & Hj & Hm & Hp & Hc).
      cbn [max_size packed] in Hm, Hp, Hc.
      exists (S j). split; [cbn [length]; lia|]. split; [exact Hm|]. split.
      * rewrite Hp. cbn [firstn map concat]. rewrite app_assoc. reflexivity.
      * destruct Hc as [->|Hc]; [left; reflexivity|right; exact Hc].
    + rewrite pack_u64_full, pack_fold_full by exact Hf.
      exists 0%nat. cbn [firstn map concat]. rewrite app_nil_r.
      split; [lia|]. auto.
Qed.

(** [Id::prefix] hashes the [j] tags the packer took and the identifier's
    bytes when they still fit. *)
Lemma Id_prefix_packed : forall sha x ps, exists j, (j <= length ps)%nat
  /\ (j = length ps \/ (length ps + U64_LEN + 32 < U64_LEN * j + U64_LEN)%nat)
  /\ Id_prefix sha x ps
     = Id_from_slice (sha
         (if (U64_LEN * j + length (id_d x) <=? length ps + U64_LEN + 32)%nat
          then concat (map u64_be (firstn j ps)) ++ id_d x
          else concat (map u64_be (firstn j ps)))).
Proof.
  intros sha x ps. unfold Id_prefix. cbv beta zeta.
  destruct (pack_fold ps (Packer_new (length ps + U64_LEN + 32) (length ps + U64_LEN + 32)))
    as (j & Hj & Hm & Hp & Hc).
  revert Hm Hp Hc.
  generalize (fold_left (fun p pfx => discard p (pack_u64 p pfx)) ps
                (Packer_new (length ps + U64_LEN + 32) (length ps + U64_LEN + 32))).
  intros [m pk] Hm Hp Hc. cbn [max_size packed Packer_new app] in Hm, Hp, Hc. subst m pk.
  exists j. split; [exact Hj|]. split.
  - destruct Hc as [Hc|Hc]; [left; exact Hc|right].
    rewrite length_concat_u64, firstn_length_le in Hc by exact Hj. exact Hc.
  - unfold discard, pack_bytes, take_bytes. cbn [packed max_size].
    rewrite length_concat_u64, firstn_length_le by exact Hj.
    destruct (_ <=? _); reflexivity.
Qed.

(** C1 (code): [Id::prefix] agrees with section 4.4 for no tag and for one
    tag; for two tags or more the packer bound [prefixes.len() + 8 + 32] is
    too small for the identifier's bytes, which are dropped, so that only
    (some of) the tags are hashed; on [Id::empty()] and the tags [0, 0] the
    result differs from section 4.4. *)
Theorem prefix_drops_id_bytes :
  (forall sha x ps, length (id_d x) = ID_LEN -> (length ps <= 1)%nat ->
     Id_prefix sha x ps = Id_from_slice (sha (prefix_preimage_spec x ps)))
  /\ (forall sha x ps, length (id_d x) = ID_LEN -> (2 <= length ps)%nat ->
     exists j, (j <= length ps)%nat
     /\ Id_prefix sha x ps = Id_from_slice (sha (concat (map u64_be (firstn j ps)))))
  /\ Id_prefix Sha256.digest Id_empty [0; 0]%N
     <> Id_from_slice (Sha256.digest (prefix_preimage_spec Id_empty [0; 0]%N)).
Proof.
  split; [|split].
  - intros sha x ps Hx Hps. destruct (Id_prefix_packed sha x ps) as (j & Hj & Hc & ->).
    rewrite Hx. destruct Hc as [->|Hc]; [|unfold U64_LEN in Hc; lia].
    rewrite firstn_all. unfold ID_LEN, U64_LEN.
    destruct (Nat.leb_spec (8 * length ps + 32) (length ps + 8 + 32)); [reflexivity|lia].
  - intros sha x ps Hx Hps. destruct (Id_prefix_packed sha x ps) as (j & Hj & Hc & ->).
    exists j. split; [exact Hj|]. rewrite Hx. unfold ID_LEN, U64_LEN in *.
    destruct (Nat.leb_spec (8 * j + 32) (length ps + 8 + 32)); [|reflexivity].
    destruct Hc; lia.
  - intros H. vm_compute in H. discriminate H.
Qed.

Lemma prefix_drops_id_bytes_witness :
  exists j, (j <= 2)%nat
  /\ Id_prefix Sha256.digest Id_empty [0; 0]%N
     = Id_from_slice (Sha256.digest (concat (map u64_be (firstn j [0; 0]%N)))).
Proof.
  apply (proj1 (proj2 prefix_drops_id_bytes) Sha256.digest Id_empty [0; 0]%N);
    reflexivity.
Defined.

(** * Further properties of the code *)

(** ** [from_slice] and [is_empty] *)

Lemma Id_from_slice_pad : forall d, (length d <= ID_LEN)%nat ->
  Id_from_slice d = Ok (mkId (d ++ repeat x00 (ID_LEN - length d))).
Proof.
  intros d Hd. unfold Id_from_slice, assert, vec_resize.
  destruct (Nat.leb_spec (length d) ID_LEN) as [H|H]; [|lia]. cbn [bind].
  destruct (Nat.ltb_spec (length d) ID_LEN) as [H'|H']; [reflexivity|].
  replace (ID_LEN - length d)%nat with 0%nat by lia. rewrite app_nil_r. reflexivity.
Qed.

Lemma ShortId_from_slice_pad : forall d, (length d <= SHORT_ID_LEN)%nat ->
  ShortId_from_slice d = Ok (mkShortId (d ++ repeat x00 (SHORT_ID_LEN - length d))).
Proof.
  intros d Hd. unfold ShortId_from_slice, assert, vec_resize.
  destruct (Nat.leb_spec (length d) SHORT_ID_LEN) as [H|H]; [|lia]. cbn [bind].
  destruct (Nat.ltb_spec (length d) SHORT_ID_LEN) as [H'|H']; [reflexivity|].
  replace (SHORT_ID_LEN - length d)%nat with 0%nat by lia. rewrite app_nil_r. reflexivity.
Qed.

Lemma Id_from_slice_ok : forall d x, Id_from_slice d = Ok x ->
  (length d <= ID_LEN)%nat /\ x = mkId (d ++ repeat x00 (ID_LEN - length d)).
Proof.
  intros d x H. destruct (Nat.le_gt_cases (length d) ID_LEN) as [Hl|Hl].
  - rewrite Id_from_slice_pad in H by exact Hl. injection H as <-. auto.
  - exfalso. apply Id_from_slice_panic in Hl. congruence.
Qed.

Lemma ShortId_from_slice_ok : forall d x, ShortId_from_slice d = Ok x ->
  (length d <= SHORT_ID_LEN)%nat /\ x = mkShortId (d ++ repeat x00 (SHORT_ID_LEN - length d)).
Proof.
  intros d x H. destruct (Nat.le_gt_cases (length d) SHORT_ID_LEN) as [Hl|Hl].
  - rewrite ShortId_from_slice_pad in H by exact Hl. injection H as <-. auto.
  - exfalso. apply ShortId_from_slice_panic in Hl. congruence.
Qed.

Lemma NodeId_from_slice_ok : forall d x, NodeId_from_slice d = Ok x ->
  length d = NODE_ID_LEN /\ x = mkNodeId d.
Proof.
  intros d x H. destruct (Nat.eq_dec (length d) NODE_ID_LEN) as [Hl|Hl].
  - rewrite NodeId_from_slice_nominal in H by exact Hl. injection H as <-. auto.
  - exfalso. apply NodeId_from_slice_panic in Hl. congruence.
Qed.

Lemma length_pad : forall d n, (length d <= n)%nat -> length (d ++ repeat x00 (n - length d)) = n.
Proof. intros d n H. rewrite length_app, repeat_length. lia. Qed.

Lemma pad_zero_iff : forall d n, (length d <= n)%nat ->
  d ++ repeat x00 (n - length d) = repeat x00 n <-> Forall (fun b => b = x00) d.
Proof.
  intros d n Hn. split.
  - intros H. apply Forall_forall. intros b Hb.
    assert (Hr : In b (repeat x00 n)) by (rewrite <- H; apply in_or_app; left; exact Hb).
    apply repeat_spec in Hr. exact Hr.
  - intros H. rewrite (Forall_repeat_eq x00 d H) at 1. rewrite <- repeat_app. f_equal. lia.
Qed.

(** X: [is_empty] holds exactly for the all-zero buffer of the nominal
    length, whatever the length of the buffer it is called on. *)
Theorem is_empty_iff_zero_buffer :
  (forall x : Id, Id_is_empty x = true <-> id_d x = repeat x00 ID_LEN)
  /\ (forall x : ShortId, ShortId_is_empty x = true <-> short_id_d x = repeat x00 SHORT_ID_LEN)
  /\ (forall x : NodeId, NodeId_is_empty x = true <-> node_id_d x = repeat x00 NODE_ID_LEN).
Proof.
  split; [|split]; intros x.
  - unfold Id_is_empty. rewrite ord_eq_true.
    exact (slice_cmp_bytes_eq (id_d x) (repeat x00 ID_LEN)).
  - unfold ShortId_is_empty. rewrite ord_eq_true.
    exact (slice_cmp_bytes_eq (short_id_d x) (repeat x00 SHORT_ID_LEN)).
  - unfold NodeId_is_empty. rewrite ord_eq_true.
    exact (slice_cmp_bytes_eq (node_id_d x) (repeat x00 NODE_ID_LEN)).
Qed.

(** X: the identifier [from_slice] builds is empty exactly when every
    input byte is zero. *)
Theorem from_slice_empty_iff_zero_input :
  (forall d, (length d <= ID_LEN)%nat -> exists x, Id_from_slice d = Ok x
     /\ (Id_is_empty x = true <-> Forall (fun b => b = x00) d))
  /\ (forall d, (length d <= SHORT_ID_LEN)%nat -> exists x, ShortId_from_slice d = Ok x
     /\ (ShortId_is_empty x = true <-> Forall (fun b => b = x00) d))
  /\ (forall d, length d = NODE_ID_LEN -> exists x, NodeId_from_slice d = Ok x
     /\ (NodeId_is_empty x = true <-> Forall (fun b => b = x00) d)).
Proof.
  split; [|split]; intros d Hd.
  - eexists. split; [apply Id_from_slice_pad; exact Hd|].
    unfold Id_is_empty. rewrite ord_eq_true.
    rewrite <- (pad_zero_iff d ID_LEN Hd). apply slice_cmp_bytes_eq.
  - eexists. split; [apply ShortId_from_slice_pad; exact Hd|].
    unfold ShortId_is_empty. rewrite ord_eq_true.
    rewrite <- (pad_zero_iff d SHORT_ID_LEN Hd). apply slice_cmp_bytes_eq.
  - eexists. split; [apply NodeId_from_slice_nominal; exact Hd|].
    unfold NodeId_is_empty. rewrite ord_eq_true.
    rewrite <- (pad_zero_iff d NODE_ID_LEN ltac:(lia)), Hd, Nat.sub_diag, app_nil_r.
    apply slice_cmp_bytes_eq.
Qed.

Lemma from_slice_empty_iff_zero_input_witness :
  exists x, Id_from_slice [x00; x00] = Ok x
  /\ (Id_is_empty x = true <-> Forall (fun b => b = x00) [x00; x00]).
Proof.
  apply (proj1 from_slice_empty_iff_zero_input). apply Nat.leb_le. reflexivity.
Defined.

(** X: appending zero bytes to the input of [Id::from_slice] or
    [ShortId::from_slice] does not change the result, as long as the input
    stays within the nominal length. *)
Theorem from_slice_trailing_zeros :
  (forall d k, (length d + k <= ID_LEN)%nat ->
     Id_from_slice (d ++ repeat x00 k) = Id_from_slice d)
  /\ (forall d k, (length d + k <= SHORT_ID_LEN)%nat ->
     ShortId_from_slice (d ++ repeat x00 k) = ShortId_from_slice d).
Proof.
  split; intros d k H.
  - rewrite !Id_from_slice_pad by (rewrite ?length_app, ?repeat_length; lia).
    rewrite length_app, repeat_length, <- app_assoc, <- repeat_app.
    replace (k + (ID_LEN - (length d + k)))%nat with (ID_LEN - length d)%nat by lia.
    reflexivity.
  - rewrite !ShortId_from_slice_pad by (rewrite ?length_app, ?repeat_length; lia).
    rewrite length_app, repeat_length, <- app_assoc, <- repeat_app.
    replace (k + (SHORT_ID_LEN - (length d + k)))%nat with (SHORT_ID_LEN - length d)%nat
      by lia.
    reflexivity.
Qed.

Lemma from_slice_trailing_zeros_witness :
  Id_from_slice ([x01; x00; x00; x00] ++ repeat x00 1) = Id_from_slice [x01; x00; x00; x00].
Proof.
  apply (proj1 from_slice_trailing_zeros). apply Nat.leb_le. reflexivity.
Defined.

(** X: the buffer of an identifier built by [from_slice] builds that same
    identifier again. *)
Theorem from_slice_rebuild :
  (forall d x, Id_from_slice d = Ok x -> Id_from_slice (id_d x) = Ok x)
  /\ (forall d x, ShortId_from_slice d = Ok x -> ShortId_from_slice (short_id_d x) = Ok x)
  /\ (forall d x, NodeId_from_slice d = Ok x -> NodeId_from_slice (node_id_d x) = Ok x).
Proof.
  split; [|split]; intros d x H.
  - apply Id_from_slice_ok in H as [Hl ->]. apply Id_from_slice_nominal, length_pad, Hl.
  - apply ShortId_from_slice_ok in H as [Hl ->].
    apply ShortId_from_slice_nominal, length_pad, Hl.
  - apply NodeId_from_slice_ok in H as [Hl ->]. apply NodeId_from_slice_nominal, Hl.
Qed.

Lemma from_slice_rebuild_witness :
  Id_from_slice [x01] = Ok (mkId (x01 :: repeat x00 31))
  /\ Id_from_slice (id_d (mkId (x01 :: repeat x00 31))) = Ok (mkId (x01 :: repeat x00 31)).
Proof.
  split; [reflexivity|]. apply (proj1 from_slice_rebuild [x01]). reflexivity.
Defined.

(** X: [NodeId::short_id] on a 20-byte [NodeId] gives a [ShortId] from
    whose bytes [NodeId::from_slice] rebuilds the [NodeId]; on a [NodeId]
    whose buffer is longer than 20 bytes it panics. *)
Theorem node_id_short_id_round_trip :
  (forall x, length (node_id_d x) = NODE_ID_LEN ->
     exists s, NodeId_short_id x = Ok s /\ NodeId_from_slice (short_id_d s) = Ok x)
  /\ (forall x, (SHORT_ID_LEN < length (node_id_d x))%nat -> NodeId_short_id x = Panic).
Proof.
  split; intros [b] Hb; cbn [node_id_d] in Hb.
  - exists (mkShortId b). split.
    + apply ShortId_from_slice_nominal. exact Hb.
    + apply NodeId_from_slice_nominal. exact Hb.
  - apply ShortId_from_slice_panic. exact Hb.
Qed.

Lemma node_id_short_id_round_trip_witness :
  exists s, NodeId_short_id NodeId_empty = Ok s
  /\ NodeId_from_slice (short_id_d s) = Ok NodeId_empty.
Proof.
  apply (proj1 node_id_short_id_round_trip). reflexivity.
Defined.

(** ** The orders are strict total orders on all values *)

Lemma u8_total : strict_total_order (@cmp byte Ord_u8).
Proof.
  split; [|split].
  - exact u8_cmp_eq.
  - intros x y. apply N.compare_antisym.
  - intros x y z. unfold cmp, Ord_u8. rewrite !N.compare_lt_iff. lia.
Qed.

Lemma slice_cmp_total : forall {A} `{Ord A},
  strict_total_order (@cmp A _) -> strict_total_order (@slice_cmp A _).
Proof.
  intros A H (Heq & Hanti & Htrans). split; [|split].
  - intros a b. rewrite slice_cmp_eq_iff. split.
    + intros Hf. induction Hf as [|x y a b Hxy _ IH]; [reflexivity|].
      apply Heq in Hxy. congruence.
    + intros <-. induction a as [|x a IH]; constructor; [apply Heq; reflexivity|exact IH].
  - induction x as [|x a IH]; intros [|y b]; try reflexivity.
    cbn [slice_cmp]. rewrite (Hanti x y), IH.
    destruct (cmp x y); reflexivity.
  - induction x as [|x a IH]; intros [|y b] [|z c]; cbn [slice_cmp];
      try discriminate; try reflexivity.
    destruct (cmp x y) eqn:Exy; cbn [then_with]; try discriminate;
    destruct (cmp y z) eqn:Eyz; cbn [then_with]; try discriminate.
    + apply Heq in Exy, Eyz. subst. rewrite (proj2 (Heq z z) eq_refl). cbn [then_with].
      apply IH.
    + apply Heq in Exy. subst. rewrite Eyz. reflexivity.
    + apply Heq in Eyz. subst. rewrite Exy. reflexivity.
    + rewrite (Htrans x y z Exy Eyz). reflexivity.
Qed.

Lemma total_order_map : forall {T U} (g : U -> U -> comparison) (f : T -> U),
  (forall x y, f x = f y -> x = y) -> strict_total_order g ->
  strict_total_order (fun x y => g (f x) (f y)).
Proof.
  intros T U g f Hf (Heq & Hanti & Htrans). split; [|split].
  - intros x y. rewrite Heq. split; [apply Hf|intros ->; reflexivity].
  - intros x y. apply Hanti.
  - intros x y z. apply Htrans.
Qed.

Lemma length_first_cmp_Lt : forall {A} `{Ord A} (a b : list A),
  length_first_cmp a b = Lt <->
  (length a < length b)%nat \/ (length a = length b /\ slice_cmp a b = Lt).
Proof.
  intros A H a b. unfold length_first_cmp.
  change (@cmp nat Ord_usize (length a) (length b)) with (Nat.compare (length a) (length b)).
  destruct (Nat.compare_spec (length a) (length b)) as [Hl|Hl|Hl]; cbn [then_with].
  - split; [intros E; right; auto|intros [E|[_ E]]; [lia|exact E]].
  - split; [intros _; left; exact Hl|reflexivity].
  - split; [discriminate|intros [E|[E _]]; lia].
Qed.

Lemma length_first_cmp_total : forall {A} `{Ord A},
  strict_total_order (@cmp A _) -> strict_total_order (@length_first_cmp A _).
Proof.
  intros A H HA. pose proof (slice_cmp_total HA) as (Heq & Hanti & Htrans).
  split; [|split].
  - intros a b. unfold length_first_cmp.
    change (@cmp nat Ord_usize (length a) (length b)) with (Nat.compare (length a) (length b)).
    destruct (Nat.compare_spec (length a) (length b)) as [Hl|Hl|Hl]; cbn [then_with].
    + apply Heq.
    + split; [discriminate|intros ->; lia].
    + split; [discriminate|intros ->; lia].
  - intros a b. unfold length_first_cmp.
    change (@cmp nat Ord_usize (length b) (length a)) with (Nat.compare (length b) (length a)).
    change (@cmp nat Ord_usize (length a) (length b)) with (Nat.compare (length a) (length b)).
    destruct (Nat.compare_spec (length a) (length b)) as [Hl|Hl|Hl].
    + rewrite Hl, Nat.compare_refl. cbn [then_with]. apply Hanti.
    + rewrite (proj2 (Nat.compare_gt_iff (length b) (length a)) Hl). reflexivity.
    + rewrite (proj2 (Nat.compare_lt_iff (length b) (length a)) Hl). reflexivity.
  - intros a b c. rewrite !length_first_cmp_Lt.
    intros [Hab|[Hab Eab]] [Hbc|[Hbc Ebc]]; [left; lia|left; lia|left; lia|].
    right. split; [congruence|]. eapply Htrans; eassumption.
Qed.

Lemma Id_total : strict_total_order (@cmp Id Ord_Id).
Proof.
  apply (total_order_map slice_cmp id_d); [|exact (slice_cmp_total u8_total)].
  intros [a] [b] E. cbn in E. congruence.
Qed.

Lemma ShortId_total : strict_total_order (@cmp ShortId Ord_ShortId).
Proof.
  apply (total_order_map slice_cmp short_id_d); [|exact (slice_cmp_total u8_total)].
  intros [a] [b] E. cbn in E. congruence.
Qed.

Lemma NodeId_total : strict_total_order (@cmp NodeId Ord_NodeId).
Proof.
  apply (total_order_map slice_cmp node_id_d); [|exact (slice_cmp_total u8_total)].
  intros [a] [b] E. cbn in E. congruence.
Qed.

(** X: for all [Id], [ShortId] and [NodeId] values, whatever the length of
    their buffers, [cmp] is a strict total order: [Equal] exactly on equal
    values, antisymmetric, and [Less] is transitive. *)
Theorem identifier_cmp_total_order :
  strict_total_order (@cmp Id Ord_Id) /\ strict_total_order (@cmp ShortId Ord_ShortId)
  /\ strict_total_order (@cmp NodeId Ord_NodeId).
Proof. split; [exact Id_total|split; [exact ShortId_total|exact NodeId_total]]. Qed.

(** X: the same holds for the collections [Ids], [ShortIds] and
    [NodeIds]: their [cmp] is a strict total order, equal exactly on equal
    sequences. *)
Theorem collection_cmp_total_order :
  strict_total_order (@cmp Ids Ord_Ids) /\ strict_total_order (@cmp ShortIds Ord_ShortIds)
  /\ strict_total_order (@cmp NodeIds Ord_NodeIds).
Proof.
  split; [|split].
  - apply (total_order_map length_first_cmp ids_0); [|exact (length_first_cmp_total Id_total)].
    intros [a] [b] E. cbn in E. congruence.
  - apply (total_order_map length_first_cmp short_ids_0);
      [|exact (length_first_cmp_total ShortId_total)].
    intros [a] [b] E. cbn in E. congruence.
  - apply (total_order_map length_first_cmp node_ids_0);
      [|exact (length_first_cmp_total NodeId_total)].
    intros [a] [b] E. cbn in E. congruence.
Qed.

(** ** Text and serde *)

Lemma Id_from_str_encode : forall sha d,
  (forall l, (CHECKSUM_LENGTH <= length (sha l))%nat) ->
  Id_from_str sha (encode_cb58_with_checksum sha d) = Id_from_slice d.
Proof. intros sha d Hsha. unfold Id_from_str. rewrite cb58_roundtrip by exact Hsha. reflexivity. Qed.

Lemma ShortId_from_str_encode : forall sha d,
  (forall l, (CHECKSUM_LENGTH <= length (sha l))%nat) ->
  ShortId_from_str sha (encode_cb58_with_checksum sha d) = ShortId_from_slice d.
Proof.
  intros sha d Hsha. unfold ShortId_from_str. rewrite cb58_roundtrip by exact Hsha.
  reflexivity.
Qed.

Lemma NodeId_from_str_encode : forall sha d,
  (forall l, (CHECKSUM_LENGTH <= length (sha l))%nat) -> (20 <= length d)%nat ->
  NodeId_from_str sha (encode_cb58_with_checksum sha d) = NodeId_from_slice d.
Proof.
  intros sha d Hsha Hd. unfold NodeId_from_str.
  rewrite strip_unprefixed by (apply encode_safe || (apply encode_length_min; assumption)).
  cbn [bind]. rewrite cb58_roundtrip by exact Hsha. reflexivity.
Qed.

Lemma NodeId_from_str_to_string : forall sha x,
  (forall l, (CHECKSUM_LENGTH <= length (sha l))%nat) ->
  NodeId_from_str sha (NodeId_to_string sha x) = NodeId_from_slice (node_id_d x).
Proof.
  intros sha x Hsha. unfold NodeId_to_string, NodeId_from_str.
  rewrite strip_prefixed by apply encode_safe. cbn [bind].
  rewrite cb58_roundtrip by exact Hsha. reflexivity.
Qed.

(** X: serializing an identifier of the nominal length and reading it back
    with the optional or the required deserializer gives the identifier. *)
Theorem serde_round_trip :
  forall sha, (forall l, (CHECKSUM_LENGTH <= length (sha l))%nat) ->
  (forall x : Id, length (id_d x) = ID_LEN ->
     deserialize_id sha (Id_serialize sha x) = Ok (Some x)
     /\ must_deserialize_id sha (Id_serialize sha x) = Ok x)
  /\ (forall x : ShortId, length (short_id_d x) = SHORT_ID_LEN ->
     deserialize_short_id sha (ShortId_serialize sha x) = Ok (Some x)
     /\ must_deserialize_short_id sha (ShortId_serialize sha x) = Ok x)
  /\ (forall x : NodeId, length (node_id_d x) = NODE_ID_LEN ->
     deserialize_node_id sha (NodeId_serialize sha x) = Ok (Some x)
     /\ must_deserialize_node_id sha (NodeId_serialize sha x) = Ok x).
Proof.
  intros sha Hsha. split; [|split]; intros [b] Hb; cbn [id_d short_id_d node_id_d] in Hb.
  - unfold Id_serialize, deserialize_id, must_deserialize_id, Option_deserialize, fmt_id.
    cbn [String_deserialize bind]. unfold Id_to_string. cbn [id_d].
    rewrite Id_from_str_encode, Id_from_slice_nominal by assumption. split; reflexivity.
  - unfold ShortId_serialize, deserialize_short_id, must_deserialize_short_id,
      Option_deserialize, fmt_short_id.
    cbn [String_deserialize bind]. unfold ShortId_to_string. cbn [short_id_d].
    rewrite ShortId_from_str_encode, ShortId_from_slice_nominal by assumption.
    split; reflexivity.
  - unfold NodeId_serialize, deserialize_node_id, must_deserialize_node_id,
      Option_deserialize, fmt_node_id.
    cbn [String_deserialize bind].
    rewrite NodeId_from_str_to_string by assumption. cbn [node_id_d].
    rewrite NodeId_from_slice_nominal by assumption. split; reflexivity.
Qed.

Lemma serde_round_trip_witness :
  deserialize_node_id Sha256.digest (NodeId_serialize Sha256.digest NodeId_empty)
  = Ok (Some NodeId_empty)
  /\ must_deserialize_node_id Sha256.digest (NodeId_serialize Sha256.digest NodeId_empty)
  = Ok NodeId_empty.
Proof.
  apply (proj2 (proj2 (serde_round_trip Sha256.digest sha256_digest_checksum))).
  reflexivity.
Defined.

(** X: [Id::from_str] and [ShortId::from_str] accept the text of any
    payload up to the nominal length and pad it with zero bytes; in
    particular [Id::from_str] reads a [ShortId]'s text as that [ShortId]'s
    20 bytes followed by 12 zero bytes. *)
Theorem from_str_pads_short_payload :
  forall sha, (forall l, (CHECKSUM_LENGTH <= length (sha l))%nat) ->
  (forall d, (length d <= ID_LEN)%nat ->
     Id_from_str sha (encode_cb58_with_checksum sha d)
     = Ok (mkId (d ++ repeat x00 (ID_LEN - length d))))
  /\ (forall d, (length d <= SHORT_ID_LEN)%nat ->
     ShortId_from_str sha (encode_cb58_with_checksum sha d)
     = Ok (mkShortId (d ++ repeat x00 (SHORT_ID_LEN - length d))))
  /\ (forall s, length (short_id_d s) = SHORT_ID_LEN ->
     Id_from_str sha (ShortId_to_string sha s) = Ok (mkId (short_id_d s ++ repeat x00 12))).
Proof.
  intros sha Hsha. split; [|split].
  - intros d Hd. rewrite Id_from_str_encode by exact Hsha. apply Id_from_slice_pad, Hd.
  - intros d Hd. rewrite ShortId_from_str_encode by exact Hsha.
    apply ShortId_from_slice_pad, Hd.
  - intros [b] Hb. cbn [short_id_d] in Hb |- *. unfold ShortId_to_string. cbn [short_id_d].
    rewrite Id_from_str_encode, Id_from_slice_pad
      by (exact Hsha || (unfold ID_LEN, SHORT_ID_LEN in *; lia)).
    rewrite Hb. reflexivity.
Qed.

Lemma from_str_pads_short_payload_witness :
  Id_from_str Sha256.digest (ShortId_to_string Sha256.digest ShortId_empty)
  = Ok (mkId (short_id_d ShortId_empty ++ repeat x00 12)).
Proof.
  apply (proj2 (proj2 (from_str_pads_short_payload Sha256.digest sha256_digest_checksum))).
  reflexivity.
Defined.

(** X: the text of a 32-byte [Id] is valid CB58, yet parsing it as a
    [ShortId] or as a [NodeId] panics instead of returning an error. *)
Theorem id_text_as_short_or_node_id_panics :
  forall sha, (forall l, (CHECKSUM_LENGTH <= length (sha l))%nat) ->
  forall x : Id, length (id_d x) = ID_LEN ->
  ShortId_from_str sha (Id_to_string sha x) = Panic
  /\ NodeId_from_str sha (Id_to_string sha x) = Panic.
Proof.
  intros sha Hsha [b] Hb. cbn [id_d] in Hb. unfold Id_to_string. cbn [id_d].
  rewrite ShortId_from_str_encode, NodeId_from_str_encode
    by (assumption || (rewrite Hb; unfold ID_LEN; lia)).
  split.
  - apply ShortId_from_slice_panic. rewrite Hb. unfold ID_LEN, SHORT_ID_LEN. lia.
  - apply NodeId_from_slice_panic. rewrite Hb. unfold ID_LEN, NODE_ID_LEN. lia.
Qed.

Lemma id_text_as_short_or_node_id_panics_witness :
  ShortId_from_str Sha256.digest (Id_to_string Sha256.digest Id_empty) = Panic
  /\ NodeId_from_str Sha256.digest (Id_to_string Sha256.digest Id_empty) = Panic.
Proof.
  apply (id_text_as_short_or_node_id_panics Sha256.digest sha256_digest_checksum).
  reflexivity.
Defined.

Lemma bs58_decode_prefixed : forall t, bs58_decode (NODE_ID_ENCODE_PREFIX ++ t) = None.
Proof. intros t. reflexivity. Qed.

(** X: [Id::from_str] and [ShortId::from_str] reject the text of any
    [NodeId], which carries the ["NodeID-"] prefix, with a decode error. *)
Theorem node_id_text_rejected_by_id_parsers :
  forall sha (x : NodeId), exists m,
  Id_from_str sha (NodeId_to_string sha x) = Err (DecodeError m)
  /\ ShortId_from_str sha (NodeId_to_string sha x) = Err (DecodeError m).
Proof.
  intros sha x. eexists.
  unfold Id_from_str, ShortId_from_str, NodeId_to_string, decode_cb58_with_checksum.
  rewrite bs58_decode_prefixed. split; reflexivity.
Qed.

(** ** [strip_node_id_prefix] *)

Lemma strip_node_id_prefix_eq : forall s,
  strip_node_id_prefix s =
  if (String.length NODE_ID_ENCODE_PREFIX <=? String.length s)
     && is_char_boundary s (String.length NODE_ID_ENCODE_PREFIX)
  then if String.eqb (substring 0 (String.length NODE_ID_ENCODE_PREFIX) s) NODE_ID_ENCODE_PREFIX
       then Ok (substring (String.length NODE_ID_ENCODE_PREFIX)
                  (String.length s - String.length NODE_ID_ENCODE_PREFIX) s)
       else Ok s
  else Panic.
Proof.
  intros s. unfold strip_node_id_prefix, str_index. cbv zeta.
  change (String.length NODE_ID_ENCODE_PREFIX) with 7%nat.
  rewrite Nat.leb_refl, boundary_length.
  replace (is_char_boundary s 0) with true by reflexivity.
  destruct (7 <=? String.length s); destruct (is_char_boundary s 7);
    cbn [andb bind Nat.leb Nat.sub]; reflexivity.
Qed.

(** X: [strip_node_id_prefix] panics exactly when the string is shorter
    than the 7-byte prefix or its byte 7 lies inside a multi-byte UTF-8
    character (as in ["NodeIDé"]); otherwise it removes the first 7 bytes
    when they are ["NodeID-"], once only, and returns the string unchanged
    when they are not. *)
Theorem strip_node_id_prefix_behaviour :
  (forall s,
   strip_node_id_prefix s =
   if (String.length NODE_ID_ENCODE_PREFIX <=? String.length s)
      && is_char_boundary s (String.length NODE_ID_ENCODE_PREFIX)
   then if String.eqb (substring 0 (String.length NODE_ID_ENCODE_PREFIX) s) NODE_ID_ENCODE_PREFIX
        then Ok (substring (String.length NODE_ID_ENCODE_PREFIX)
                   (String.length s - String.length NODE_ID_ENCODE_PREFIX) s)
        else Ok s
   else Panic)
  /\ (forall t, strip_node_id_prefix (NODE_ID_ENCODE_PREFIX ++ NODE_ID_ENCODE_PREFIX ++ t)
               = Ok (NODE_ID_ENCODE_PREFIX ++ t)%string)
  /\ strip_node_id_prefix
       ("NodeID" ++ String (ascii_of_nat 195) (String (ascii_of_nat 169) EmptyString))
     = Panic.
Proof.
  split; [exact strip_node_id_prefix_eq|split].
  - intros t. rewrite strip_node_id_prefix_eq. cbn. rewrite substring_all. reflexivity.
  - reflexivity.
Qed.
